(** * next-chat: the resilient-call core and the request rate limiter

    A shallow embedding of

    - [src/app/lib/agent-manager.ts]: [CircuitBreakerImpl], [withRetry],
      [AgentManagerImpl] ([getAgent], [initializeAgent], [getHealth]);
    - [src/app/api/middleware/rate-limit.ts]: [InMemoryRateLimiter]
      ([checkLimit], [reset], [cleanup]), [withRateLimit], [getClientIP];
    - [src/app/api/chat/route.ts]: [handleChat], [POST];

    followed by the properties of these functions.

    Conventions.  JavaScript numbers that hold counters and millisecond
    timestamps are integers of [Z].  Strings are byte strings: a header
    value stands for its UTF-8 encoding, which is what [Buffer.from] sees.
    Asynchronous functions are run to completion one after the other; what
    the environment decides (the wall clock, the outcome of a remote call)
    is read from the [World]. *)

From Stdlib Require Import ZArith Lia List String Ascii Bool.
From stdpp Require Import base gmap strings list pretty.

Open Scope Z_scope.

(** ** Errors ([src/app/types.ts]) *)

(** The values the code throws.  [AgentError] is the base class; the
    subclasses fix [code], [statusCode] and [isRetryable] in their
    constructors.  [JsError] is any other [Error]; [JsUndefined] is what
    [throw lastError!] throws when [lastError] was never assigned. *)
Inductive Exn :=
| AgentError (message code : string) (status : Z) (retryable : bool)
| ConfigurationError (message : string)
| RateLimitError (message : string) (resetAt : Z)
| CircuitBreakerError (message : string)
| JsError (message : string)
| JsUndefined.

Definition instanceofAgentError (e : Exn) : bool :=
  match e with
  | AgentError _ _ _ _ | ConfigurationError _
  | RateLimitError _ _ | CircuitBreakerError _ => true
  | JsError _ | JsUndefined => false
  end.

Definition code (e : Exn) : string :=
  match e with
  | AgentError _ c _ _ => c
  | ConfigurationError _ => "CONFIGURATION_ERROR"
  | RateLimitError _ _ => "RATE_LIMIT_EXCEEDED"
  | CircuitBreakerError _ => "CIRCUIT_BREAKER_OPEN"
  | JsError _ | JsUndefined => "INTERNAL_ERROR"
  end.

Definition statusCode (e : Exn) : Z :=
  match e with
  | AgentError _ _ s _ => s
  | ConfigurationError _ => 500
  | RateLimitError _ _ => 429
  | CircuitBreakerError _ => 503
  | JsError _ | JsUndefined => 500
  end.


Inductive Res (A : Type) :=
| Ok (a : A)
| Throw (e : Exn).
Arguments Ok {A} a.
Arguments Throw {A} e.

(** ** Configuration ([src/app/lib/config.ts]) *)

Record Config := {
  OPENAI_API_KEY : string;
  OPENAI_MODEL : string;
  RATE_LIMIT_REQUESTS : Z;
  RATE_LIMIT_WINDOW : Z;
  MAX_RETRIES : Z;
  RETRY_DELAY_MS : Z;
  CIRCUIT_BREAKER_THRESHOLD : Z;
  CIRCUIT_BREAKER_TIMEOUT : Z
}.

Definition getRateLimitWindow (c : Config) : Z := RATE_LIMIT_WINDOW c * 1000.

(** The defaults of [configSchema], around a given API key. *)
Definition defaultConfig (key : string) : Config := {|
  OPENAI_API_KEY := key;
  OPENAI_MODEL := "gpt-4o-mini";
  RATE_LIMIT_REQUESTS := 100;
  RATE_LIMIT_WINDOW := 60;
  MAX_RETRIES := 3;
  RETRY_DELAY_MS := 1000;
  CIRCUIT_BREAKER_THRESHOLD := 5;
  CIRCUIT_BREAKER_TIMEOUT := 60000
|}.

(** ** The objects of the process *)

Inductive CircuitState := closed | open | half_open.

Record CircuitBreakerImpl := {
  state : CircuitState;
  failureCount : Z;
  lastFailureTime : Z;
  nextAttemptTime : Z;
  threshold : Z;
  timeout : Z
}.

(** [new CircuitBreakerImpl(threshold, timeout)]. *)
Definition newCircuitBreaker (threshold timeout : Z) : CircuitBreakerImpl := {|
  state := closed;
  failureCount := 0;
  lastFailureTime := 0;
  nextAttemptTime := 0;
  threshold := threshold;
  timeout := timeout
|}.

(** The wrapped agent handed out by the manager: the registered tools (by
    name), whether [typeof run === 'function'], and the model of its
    configuration.  The [run] closure itself is [agentRun] below. *)
Record AgentInstance := {
  tools : list string;
  runIsFunction : bool;
  model : string
}.

(** [initializationPromise] is kept as "non-null or null": the promise of a
    run-to-completion call is settled before the next call starts. *)
Record AgentManagerImpl := {
  agent : option AgentInstance;
  isInitializing : bool;
  initializationPromise : bool;
  lastHealthCheck : Z
}.

Record Entry := {
  count : Z;
  resetTime : Z
}.

Record InMemoryRateLimiter := {
  requests : gmap string Entry;
  maxRequests : Z;
  windowMs : Z
}.

(** ** The world: clock, log and external calls *)

Inductive LogLevel := LDebug | LInfo | LWarn | LError.

(** What the process does to its environment, newest event first.
    [EvLog] is a call of [logger.debug/info/warn/error] (the data object is
    left out), [EvInvoke] a call of an external operation, [EvSleep] an
    awaited [setTimeout], [EvCheckpoint] a [tracker.checkpoint]. *)
Inductive Event :=
| EvLog (level : LogLevel) (message : string)
| EvInvoke (name : string)
| EvSleep (ms : Z)
| EvCheckpoint (name : string).

(** [Date.now()] returns [clock ticks] and moves to the next reading: the
    i-th call of [Date.now()] in the life of the process reads [clock i]. *)
Record World := {
  clock : nat → Z;
  ticks : nat;
  trace : list Event
}.

Record Process := {
  world : World;
  env : Config;
  circuitBreaker : CircuitBreakerImpl;
  manager : AgentManagerImpl;
  rateLimiter : InMemoryRateLimiter
}.

Definition set_world (f : World → World) (p : Process) : Process := {|
  world := f (world p);
  env := env p;
  circuitBreaker := circuitBreaker p;
  manager := manager p;
  rateLimiter := rateLimiter p
|}.

Definition set_circuitBreaker (f : CircuitBreakerImpl → CircuitBreakerImpl)
  (p : Process) : Process := {|
  world := world p;
  env := env p;
  circuitBreaker := f (circuitBreaker p);
  manager := manager p;
  rateLimiter := rateLimiter p
|}.

Definition set_manager (f : AgentManagerImpl → AgentManagerImpl)
  (p : Process) : Process := {|
  world := world p;
  env := env p;
  circuitBreaker := circuitBreaker p;
  manager := f (manager p);
  rateLimiter := rateLimiter p
|}.

Definition set_rateLimiter (f : InMemoryRateLimiter → InMemoryRateLimiter)
  (p : Process) : Process := {|
  world := world p;
  env := env p;
  circuitBreaker := circuitBreaker p;
  manager := manager p;
  rateLimiter := f (rateLimiter p)
|}.

Definition set_state (s : CircuitState) (b : CircuitBreakerImpl) := {|
  state := s;
  failureCount := failureCount b;
  lastFailureTime := lastFailureTime b;
  nextAttemptTime := nextAttemptTime b;
  threshold := threshold b;
  timeout := timeout b
|}.

Definition set_failureCount (n : Z) (b : CircuitBreakerImpl) := {|
  state := state b;
  failureCount := n;
  lastFailureTime := lastFailureTime b;
  nextAttemptTime := nextAttemptTime b;
  threshold := threshold b;
  timeout := timeout b
|}.

Definition set_lastFailureTime (t : Z) (b : CircuitBreakerImpl) := {|
  state := state b;
  failureCount := failureCount b;
  lastFailureTime := t;
  nextAttemptTime := nextAttemptTime b;
  threshold := threshold b;
  timeout := timeout b
|}.

Definition set_nextAttemptTime (t : Z) (b : CircuitBreakerImpl) := {|
  state := state b;
  failureCount := failureCount b;
  lastFailureTime := lastFailureTime b;
  nextAttemptTime := t;
  threshold := threshold b;
  timeout := timeout b
|}.

Definition set_agent (a : option AgentInstance) (m : AgentManagerImpl) := {|
  agent := a;
  isInitializing := isInitializing m;
  initializationPromise := initializationPromise m;
  lastHealthCheck := lastHealthCheck m
|}.

Definition set_initializing (flag promise : bool) (m : AgentManagerImpl) := {|
  agent := agent m;
  isInitializing := flag;
  initializationPromise := promise;
  lastHealthCheck := lastHealthCheck m
|}.

Definition set_lastHealthCheck (t : Z) (m : AgentManagerImpl) := {|
  agent := agent m;
  isInitializing := isInitializing m;
  initializationPromise := initializationPromise m;
  lastHealthCheck := t
|}.

(** ** The monad of the process: state and exceptions *)

Definition JS (A : Type) : Type := Process → Res A * Process.

Definition ret {A} (a : A) : JS A := λ p, (Ok a, p).

Definition throw {A} (e : Exn) : JS A := λ p, (Throw e, p).

Definition bind {A B} (m : JS A) (k : A → JS B) : JS B :=
  λ p, match m p with
       | (Ok a, p') => k a p'
       | (Throw e, p') => (Throw e, p')
       end.

(** [try { m } catch (e) { h e }]. *)
Definition try_catch {A} (m : JS A) (h : Exn → JS A) : JS A :=
  λ p, match m p with
       | (Ok a, p') => (Ok a, p')
       | (Throw e, p') => h e p'
       end.

Notation "x <- m ;; k" := (bind m (λ x, k))
  (at level 100, m at next level, right associativity).
Notation "m ;;; k" := (bind m (λ _, k))
  (at level 100, right associativity).

Definition gets {A} (f : Process → A) : JS A := λ p, (Ok (f p), p).

Definition modify (f : Process → Process) : JS unit := λ p, (Ok tt, f p).

Definition push (ev : Event) (w : World) : World := {|
  clock := clock w;
  ticks := ticks w;
  trace := ev :: trace w
|}.

Definition tick (w : World) : World := {|
  clock := clock w;
  ticks := S (ticks w);
  trace := trace w
|}.

Definition emit (ev : Event) : JS unit := modify (set_world (push ev)).

(** [Date.now()]. *)
Definition Date_now : JS Z :=
  λ p, (Ok (clock (world p) (ticks (world p))), set_world tick p).

Definition logger (level : LogLevel) (message : string) : JS unit :=
  emit (EvLog level message).

(** [await new Promise(resolve => setTimeout(resolve, delay))]. *)
Definition sleep (delay : Z) : JS unit := emit (EvSleep delay).

(** An external operation (a remote call, a library constructor): the
    environment decides its outcome from the state it is called in; the
    call is recorded and touches nothing else. *)
Record Operation (T : Type) := {
  op_name : string;
  op_result : Process → Res T
}.
Arguments op_name {T} _.
Arguments op_result {T} _ _.

Definition invoke {T} (op : Operation T) : JS T :=
  λ p, (op_result op p, set_world (push (EvInvoke (op_name op))) p).

(** ** [CircuitBreakerImpl] *)

Definition canExecute : JS bool :=
  b <- gets circuitBreaker ;;
  match state b with
  | closed => ret true
  | open => now <- Date_now ;; ret (nextAttemptTime b <=? now)
  | half_open => ret true
  end.

Definition recordSuccess : JS unit :=
  modify (set_circuitBreaker (set_failureCount 0)) ;;;
  b <- gets circuitBreaker ;;
  match state b with
  | half_open =>
      modify (set_circuitBreaker (set_state closed)) ;;;
      logger LInfo "Circuit breaker closed after successful execution"
  | _ => ret tt
  end.

Definition recordFailure : JS unit :=
  modify (set_circuitBreaker (λ b, set_failureCount (failureCount b + 1) b)) ;;;
  now <- Date_now ;;
  modify (set_circuitBreaker (set_lastFailureTime now)) ;;;
  b <- gets circuitBreaker ;;
  if threshold b <=? failureCount b then
    modify (set_circuitBreaker (set_state open)) ;;;
    now' <- Date_now ;;
    modify (set_circuitBreaker (set_nextAttemptTime (now' + timeout b))) ;;;
    logger LWarn "Circuit breaker opened due to repeated failures"
  else ret tt.

(** The statement that opens the [try] block of [execute]:
    [if (this.state === 'open' && Date.now() >= this.nextAttemptTime)]. *)
Definition halfOpenGate : JS unit :=
  b <- gets circuitBreaker ;;
  match state b with
  | open =>
      now <- Date_now ;;
      if nextAttemptTime b <=? now then
        modify (set_circuitBreaker (set_state half_open)) ;;;
        logger LInfo "Circuit breaker transitioning to half-open state"
      else ret tt
  | _ => ret tt
  end.

Definition execute {T} (fn : JS T) : JS T :=
  ok <- canExecute ;;
  if negb ok then throw (CircuitBreakerError "Circuit breaker is open")
  else
    try_catch
      (halfOpenGate ;;;
       result <- fn ;;
       recordSuccess ;;;
       ret result)
      (λ error, recordFailure ;;; throw error).

(** ** [withRetry] *)

Definition retryMessage (attempt delay : Z) : string :=
  "Attempt " +:+ pretty (attempt + 1) +:+ " failed, retrying in "
  +:+ pretty delay +:+ "ms".

(** The body of the [for] loop, [iterations] more times from [attempt];
    after the loop, [throw lastError!]. *)
Fixpoint retryLoop {T} (fn : JS T) (maxRetries baseDelay : Z)
  (iterations : nat) (attempt : Z) (lastError : option Exn) : JS T :=
  match iterations with
  | O => throw (default JsUndefined lastError)
  | S rest =>
      λ p, match fn p with
           | (Ok result, p') => (Ok result, p')
           | (Throw error, p') =>
               ((if attempt <? maxRetries then
                   let delay := baseDelay * 2 ^ attempt in
                   logger LWarn (retryMessage attempt delay) ;;;
                   sleep delay
                 else ret tt) ;;;
                retryLoop fn maxRetries baseDelay rest (attempt + 1) (Some error)) p'
           end
  end.

(** [for (let attempt = 0; attempt <= maxRetries; attempt++)] runs its body
    for attempt = 0, ..., maxRetries, that is [maxRetries + 1] times (not
    at all when [maxRetries] is negative). *)
Definition withRetry {T} (fn : JS T) (maxRetries baseDelay : Z) : JS T :=
  retryLoop fn maxRetries baseDelay (Z.to_nat (maxRetries + 1)) 0 None.

(** ** [AgentManagerImpl] *)

Definition newAgentManager : AgentManagerImpl := {|
  agent := None;
  isInitializing := false;
  initializationPromise := false;
  lastHealthCheck := 0
|}.

(** The reply of the remote model, before it is flattened. *)
Record ContentPart := {
  part_type : option string;
  part_text : option string
}.

Inductive Content :=
| CString (s : string)
| CArray (parts : list ContentPart)
| CAbsent.

Record RawResult := {
  raw_role : string;
  raw_content : Content;
  raw_toolCalls : option (list (option string));
  raw_result : Content
}.

Record AgentResponse := {
  role : string;
  content : string;
  toolCalls : option (list (option string));
  result : string;
  success : bool
}.

Definition truthy (s : option string) : bool :=
  match s with
  | Some s => negb (String.eqb s "")
  | None => false
  end.

(** [(c.text || c.type === 'text') ? (c.text || '') : '']. *)
Definition partText (c : ContentPart) : string :=
  if truthy (part_text c) || bool_decide (part_type c = Some "text")
  then (if truthy (part_text c) then default "" (part_text c) else "")
  else "".

Definition flatten (c : Content) : string :=
  match c with
  | CString s => s
  | CArray parts => String.concat "" (map partText parts)
  | CAbsent => ""
  end.

Definition wrapResult (raw : RawResult) : AgentResponse := {|
  role := raw_role raw;
  content := flatten (raw_content raw);
  toolCalls := raw_toolCalls raw;
  result := flatten (raw_result raw);
  success := true
|}.

Inductive HealthStatus := healthy | unhealthy | initializing.

Record Health := {
  status : HealthStatus;
  checkedAt : Z;
  error : option string
}.

Section AgentManager.

(** The calls into the model library: [tool], [openai] and [agent] build
    the client; [agentInstance.run(message)] is the remote call. *)
Variable constructAgent : Operation unit.
Variable remoteRun : string → Operation RawResult.

(** What awaiting a promise left in flight by another, interleaved call
    yields.  Calls are run to completion here, so that no call starts
    while [isInitializing] is set. *)
Variable awaitInFlight : JS AgentInstance.

(** The [run] of the wrapped agent. *)
Definition agentRun (message : string) : JS AgentResponse :=
  execute
    (runStartTime <- Date_now ;;
     try_catch
       (raw <- invoke (remoteRun message) ;;
        runEnd <- Date_now ;;
        logger LInfo "Agent run completed successfully" ;;;
        ret (wrapResult raw))
       (λ error,
          runEnd <- Date_now ;;
          logger LError "Agent run failed" ;;;
          throw error)).

(** The function given to [this.circuitBreaker.execute] in
    [initializeAgent]. *)
Definition initializeBody : JS AgentInstance :=
  logger LInfo "Initializing agent..." ;;;
  startTime <- Date_now ;;
  try_catch
    (key <- gets (λ p, OPENAI_API_KEY (env p)) ;;
     if String.eqb key "" then
       throw (ConfigurationError "OpenAI API key is not configured")
     else
       invoke constructAgent ;;;
       modelName <- gets (λ p, OPENAI_MODEL (env p)) ;;
       let wrappedAgent :=
         {| tools := ["greet"%string]; runIsFunction := true; model := modelName |} in
       modify (set_manager (set_agent (Some wrappedAgent))) ;;;
       initEnd <- Date_now ;;
       logger LInfo "Agent initialized successfully" ;;;
       ret wrappedAgent)
    (λ error,
       initEnd <- Date_now ;;
       logger LError "Agent initialization failed" ;;;
       throw error).

Definition initializeAgent : JS AgentInstance :=
  m <- gets manager ;;
  match agent m with
  | Some a => ret a
  | None =>
      if isInitializing m && initializationPromise m then awaitInFlight
      else
        modify (set_manager (set_initializing true true)) ;;;
        maxRetries <- gets (λ p, MAX_RETRIES (env p)) ;;
        baseDelay <- gets (λ p, RETRY_DELAY_MS (env p)) ;;
        try_catch
          (result <- withRetry (execute initializeBody) maxRetries baseDelay ;;
           modify (set_manager (set_initializing false false)) ;;;
           ret result)
          (λ error,
             modify (set_manager (set_initializing false false)) ;;;
             throw error)
  end.

Definition getAgent : JS AgentInstance :=
  m <- gets manager ;;
  match agent m with
  | Some a => ret a
  | None =>
      if isInitializing m && initializationPromise m then awaitInFlight
      else initializeAgent
  end.

End AgentManager.

Definition isInitialized : JS bool :=
  m <- gets manager ;;
  ret (bool_decide (agent m ≠ None)).

Definition getHealth : JS Health :=
  now <- Date_now ;;
  m <- gets manager ;;
  if now - lastHealthCheck m <? 30000 then
    ret {| status := if agent m is Some _ then healthy else unhealthy;
           checkedAt := lastHealthCheck m;
           error := None |}
  else
    modify (set_manager (set_lastHealthCheck now)) ;;;
    try_catch
      (match agent m with
       | None =>
           ret {| status := initializing;
                  checkedAt := now;
                  error := Some "Agent not initialized"%string |}
       | Some a =>
           let isHealthy :=
             (0 <? Z.of_nat (length (tools a))) && runIsFunction a in
           ret {| status := if isHealthy then healthy else unhealthy;
                  checkedAt := now;
                  error := None |}
       end)
      (λ error,
         ret {| status := unhealthy;
                checkedAt := now;
                error := Some match error with
                              | JsUndefined => "Unknown health check error"%string
                              | AgentError m _ _ _ | ConfigurationError m
                              | RateLimitError m _ | CircuitBreakerError m
                              | JsError m => m
                              end |}).

Definition shutdown : JS unit :=
  logger LInfo "Shutting down agent manager..." ;;;
  modify (set_manager (λ m, set_initializing false false (set_agent None m))) ;;;
  logger LInfo "Agent manager shutdown complete".

(** ** [InMemoryRateLimiter] *)

Module Limit.
Record t := {
  allowed : bool;
  remaining : Z;
  resetTime : Z
}.
End Limit.

(** [new InMemoryRateLimiter(maxRequests, windowMs)]. *)
Definition newRateLimiter (maxRequests windowMs : Z) : InMemoryRateLimiter := {|
  requests := ∅;
  maxRequests := maxRequests;
  windowMs := windowMs
|}.

Definition set_requests (r : gmap string Entry) (rl : InMemoryRateLimiter) := {|
  requests := r;
  maxRequests := maxRequests rl;
  windowMs := windowMs rl
|}.

(** [Math.floor(now / this.windowMs)], for a window length that is a
    positive integer. *)
Definition windowKey (now windowMs : Z) : Z := now / windowMs.

(** [`${identifier}:${windowKey}`] *)
Definition keyOf (identifier : string) (windowKey : Z) : string :=
  identifier +:+ ":" +:+ pretty windowKey.

(** The body of [checkLimit] after [const now = Date.now()].  [current] is
    the stored object when the key is present, so that resetting its window
    writes through to the map even when the request is then refused. *)
Definition checkLimitAt (now : Z) (identifier : string)
  (rl : InMemoryRateLimiter) : Limit.t * InMemoryRateLimiter :=
  let key := keyOf identifier (windowKey now (windowMs rl)) in
  let stored := requests rl !! key in
  let fetched := default {| count := 0; resetTime := now + windowMs rl |} stored in
  let expired := resetTime fetched <? now in
  let current :=
    if expired then {| count := 0; resetTime := now + windowMs rl |}
    else fetched in
  let requests1 :=
    if expired && bool_decide (is_Some stored)
    then <[key := current]> (requests rl) else requests rl in
  let remaining := Z.max 0 (maxRequests rl - count current) in
  let allowed := count current <? maxRequests rl in
  let requests2 :=
    if allowed
    then <[key := {| count := count current + 1; resetTime := resetTime current |}]> requests1
    else requests1 in
  ({| Limit.allowed := allowed;
      Limit.remaining := if allowed then remaining - 1 else remaining;
      Limit.resetTime := resetTime current |},
   set_requests requests2 rl).

Definition resetAt (now : Z) (identifier : string)
  (rl : InMemoryRateLimiter) : InMemoryRateLimiter :=
  let key := keyOf identifier (windowKey now (windowMs rl)) in
  set_requests (delete key (requests rl)) rl.

(** [cleanup] deletes the keys whose entry has [now > data.resetTime]. *)
Definition cleanupAt (now : Z) (rl : InMemoryRateLimiter) : InMemoryRateLimiter :=
  set_requests
    (filter (λ kv : string * Entry, ¬ (resetTime kv.2 < now)) (requests rl)) rl.

Definition cleanedCount (now : Z) (rl : InMemoryRateLimiter) : nat :=
  size (filter (λ kv : string * Entry, resetTime kv.2 < now) (requests rl)).

Definition checkLimit (identifier : string) : JS Limit.t :=
  now <- Date_now ;;
  rl <- gets rateLimiter ;;
  let (r, rl') := checkLimitAt now identifier rl in
  modify (set_rateLimiter (λ _, rl')) ;;;
  ret r.

Definition reset (identifier : string) : JS unit :=
  now <- Date_now ;;
  modify (set_rateLimiter (resetAt now identifier)).

Definition cleanup : JS unit :=
  now <- Date_now ;;
  rl <- gets rateLimiter ;;
  modify (set_rateLimiter (cleanupAt now)) ;;;
  if (0 <? Z.of_nat (cleanedCount now rl))
  then logger LDebug "Cleaned up expired rate limit entries"
  else ret tt.

(** *** The limiter with its sweep timer

    The constructor arms [setInterval(() => this.cleanup(), 60000)].  The
    timer is taken to fire on time: the sweeps run at construction time
    plus 60000, plus 120000, and so on, each before any call made at or
    after its instant. *)

Definition sweepInterval : Z := 60000.

Record Scheduled := {
  limiter : InMemoryRateLimiter;
  nextSweep : Z
}.

Definition construct (startedAt maxRequests windowMs : Z) : Scheduled := {|
  limiter := newRateLimiter maxRequests windowMs;
  nextSweep := startedAt + sweepInterval
|}.

Fixpoint runSweeps (n : nat) (s : Scheduled) : Scheduled :=
  match n with
  | O => s
  | S n' =>
      runSweeps n' {| limiter := cleanupAt (nextSweep s) (limiter s);
                      nextSweep := nextSweep s + sweepInterval |}
  end.

(** How many sweeps are due at [now]. *)
Definition sweepsDue (now : Z) (s : Scheduled) : nat :=
  if now <? nextSweep s then O
  else Z.to_nat ((now - nextSweep s) / sweepInterval + 1).

(** Let the clock reach [now]. *)
Definition advance (now : Z) (s : Scheduled) : Scheduled :=
  runSweeps (sweepsDue now s) s.

Inductive Call :=
| CallCheck (identifier : string)
| CallReset (identifier : string).

Definition serve (now : Z) (c : Call) (s : Scheduled)
  : option Limit.t * Scheduled :=
  let s' := advance now s in
  match c with
  | CallCheck identifier =>
      let (r, rl) := checkLimitAt now identifier (limiter s') in
      (Some r, {| limiter := rl; nextSweep := nextSweep s' |})
  | CallReset identifier =>
      (None, {| limiter := resetAt now identifier (limiter s');
                nextSweep := nextSweep s' |})
  end.

(** The calls in the order they are made, with the answers they get. *)
Fixpoint serveAll (calls : list (Z * Call)) (s : Scheduled)
  : list (option Limit.t) * Scheduled :=
  match calls with
  | [] => ([], s)
  | (now, c) :: rest =>
      let (r, s1) := serve now c s in
      let (rs, s2) := serveAll rest s1 in
      (r :: rs, s2)
  end.

(** The calls are made in the order of their instants, none before [from]
    nor after [upto]. *)
Fixpoint chronological (from : Z) (calls : list (Z * Call)) (upto : Z) : Prop :=
  match calls with
  | [] => from ≤ upto
  | (now, _) :: rest => from ≤ now ∧ chronological now rest upto
  end.

(** The limiter at instant [upto], after the calls made since it was
    constructed at [startedAt]. *)
Definition limiterAt (startedAt maxRequests windowMs : Z)
  (calls : list (Z * Call)) (upto : Z) : InMemoryRateLimiter :=
  limiter (advance upto (serveAll calls (construct startedAt maxRequests windowMs)).2).

(** The count on record for the window of [identifier] current at [now]. *)
Definition windowCount (now : Z) (identifier : string)
  (rl : InMemoryRateLimiter) : Z :=
  match requests rl !! keyOf identifier (windowKey now (windowMs rl)) with
  | Some e => count e
  | None => 0
  end.

(** No character of [s] is a colon. *)
Fixpoint colonFree (s : string) : bool :=
  match s with
  | EmptyString => true
  | String c rest => negb (Ascii.eqb c ":") && colonFree rest
  end.

(** Every stored entry was created by a request: its key names the window
    of the request, its [resetTime] is the instant of the request plus the
    window length, and the request was not made after [upto]. *)
Definition coherent (upto : Z) (rl : InMemoryRateLimiter) : Prop :=
  ∀ key e, requests rl !! key = Some e →
    ∃ identifier seen,
      key = keyOf identifier (windowKey seen (windowMs rl))
      ∧ resetTime e = seen + windowMs rl
      ∧ seen ≤ upto.

(** The literal reading of the lifetime bound: an entry found at [upto]
    under the key of window [index] is within one sweep interval of the end
    of that window. *)
Definition withinWindowBound (rl : InMemoryRateLimiter) (upto : Z) : Prop :=
  ∀ identifier index e,
    requests rl !! keyOf identifier index = Some e →
    upto ≤ (index + 1) * windowMs rl + sweepInterval.

(** ** Requests and responses *)

Inductive Body :=
| InvalidJson
| Json (message : option string) (optionalFieldsValid : bool).

Module Request.
Record t := {
  headers : gmap string string;
  body : Body
}.
End Request.

Inductive ResponseBody :=
| ChatBody (response : AgentResponse)
| InvalidRequestBody
| ErrorBody (code : string)
| RateLimitBody (retryAfter : Z).

Module Response.
Record t := {
  status : Z;
  headers : gmap string string;
  body : ResponseBody
}.
End Response.

(** [NextResponse.json(body, { status, headers })] *)
Definition json (body : ResponseBody) (status : Z)
  (headers : list (string * string)) : Response.t := {|
  Response.status := status;
  Response.headers := list_to_map headers;
  Response.body := body
|}.

(** [response.headers.set(name, value)] *)
Definition setHeader (name value : string) (r : Response.t) : Response.t := {|
  Response.status := Response.status r;
  Response.headers := <[name := value]> (Response.headers r);
  Response.body := Response.body r
|}.

(** ** [getClientIP] *)

Definition isSpace (c : ascii) : bool :=
  let n := nat_of_ascii c in
  ((9 <=? n) && (n <=? 13))%nat || (n =? 32)%nat.

(** [s.split(',')[0]] *)
Fixpoint beforeComma (s : string) : string :=
  match s with
  | EmptyString => EmptyString
  | String c rest =>
      if Ascii.eqb c "," then EmptyString else String c (beforeComma rest)
  end.

Fixpoint trimStart (s : string) : string :=
  match s with
  | EmptyString => EmptyString
  | String c rest => if isSpace c then trimStart rest else s
  end.

(** [s.trim()], for the white space of ASCII. *)
Definition trim (s : string) : string :=
  String.rev (trimStart (String.rev (trimStart s))).

Definition alphabet : string :=
  "ABCDEFGHIJKLMNOPQRSTUVWXYZabcdefghijklmnopqrstuvwxyz0123456789+/".

Definition sextet (n : N) : ascii :=
  default "="%char (String.get (N.to_nat n) alphabet).

(** [Buffer.from(s).toString('base64')]: three bytes give four characters,
    a last group of one or two bytes is padded with [=]. *)
Fixpoint base64 (s : string) : string :=
  match s with
  | EmptyString => EmptyString
  | String a EmptyString =>
      let x := N_of_ascii a in
      String (sextet (x / 4)) (String (sextet (x mod 4 * 16)) "==")
  | String a (String b EmptyString) =>
      let x := N_of_ascii a in
      let y := N_of_ascii b in
      String (sextet (x / 4))
        (String (sextet (x mod 4 * 16 + y / 16))
           (String (sextet (y mod 16 * 4)) "="))
  | String a (String b (String c rest)) =>
      let x := N_of_ascii a in
      let y := N_of_ascii b in
      let z := N_of_ascii c in
      String (sextet (x / 4))
        (String (sextet (x mod 4 * 16 + y / 16))
           (String (sextet (y mod 16 * 4 + z / 64))
              (String (sextet (z mod 64)) (base64 rest))))
  end%N.

(** [s.slice(0, n)]: the first [n] characters, or all of [s] when it has
    fewer. *)
Fixpoint slice0 (n : nat) (s : string) : string :=
  match n, s with
  | S n', String c rest => String c (slice0 n' rest)
  | _, _ => EmptyString
  end.

Definition getClientIP (request : Request.t) : JS string :=
  let forwardedFor := Request.headers request !! "x-forwarded-for"%string in
  let realIP := Request.headers request !! "x-real-ip"%string in
  let clientIP := Request.headers request !! "x-client-ip"%string in
  if truthy forwardedFor then ret (trim (beforeComma (default "" forwardedFor)))
  else if truthy realIP then ret (default "" realIP)
  else if truthy clientIP then ret (default "" clientIP)
  else
    let header := Request.headers request !! "user-agent"%string in
    let userAgent := if truthy header then default "" header else "unknown" in
    now <- Date_now ;;
    let entropy := pretty now in
    ret (slice0 16 (base64 (userAgent +:+ entropy))).

(** ** [withRateLimit] *)

(** [Math.ceil(x / 1000)] *)
Definition ceilSeconds (x : Z) : Z := - (- x / 1000).

Definition withRateLimit (request : Request.t) (handler : JS Response.t)
  : JS Response.t :=
  try_catch
    (clientIP <- getClientIP request ;;
     limitResult <- checkLimit clientIP ;;
     response <- handler ;;
     limit <- gets (λ p, RATE_LIMIT_REQUESTS (env p)) ;;
     let response :=
       setHeader "X-RateLimit-Reset" (pretty (Limit.resetTime limitResult))
         (setHeader "X-RateLimit-Remaining" (pretty (Limit.remaining limitResult))
            (setHeader "X-RateLimit-Limit" (pretty limit) response)) in
     if negb (Limit.allowed limitResult) then
       logger LWarn "Rate limit exceeded" ;;;
       now <- Date_now ;;
       let resetTime := ceilSeconds (Limit.resetTime limitResult - now) in
       ret (json (RateLimitBody resetTime) 429
              [("Retry-After", pretty resetTime);
               ("X-RateLimit-Limit", pretty limit);
               ("X-RateLimit-Remaining", "0");
               ("X-RateLimit-Reset", pretty (Limit.resetTime limitResult))]%string)
     else ret response)
    (λ error,
       logger LError "Rate limiting middleware error" ;;;
       handler).

(** ** [handleChat] and [POST]

    Request identifiers keep their timestamp and lose their random suffix;
    token estimates, costs and durations are not modelled. *)

Definition createRequestId : JS string :=
  now <- Date_now ;;
  ret ("req-" +:+ pretty now).

Definition checkpoint (name : string) : JS unit :=
  now <- Date_now ;;
  emit (EvCheckpoint name).

Definition createErrorResponse (error : Exn) (requestId : string)
  (statusCode : Z) : JS Response.t :=
  logger LError "Request failed" ;;;
  ret (json (ErrorBody (code error)) statusCode [("X-Request-ID"%string, requestId)]).

(** [chatRequestSchema.safeParse(body).success] *)
Definition validMessage (message : option string) (optionalFieldsValid : bool) : bool :=
  match message with
  | Some m =>
      (1 <=? Z.of_nat (String.length m)) && (Z.of_nat (String.length m) <=? 10000)
      && optionalFieldsValid
  | None => false
  end.

Section Chat.

Variable constructAgent : Operation unit.
Variable remoteRun : string → Operation RawResult.
Variable awaitInFlight : JS AgentInstance.

(** The [catch] of [handleChat]; [hasContext] tells whether
    [requestContext] was assigned before the error. *)
Definition chatFailed (requestId : string) (hasContext : bool)
  (error : Exn) : JS Response.t :=
  if instanceofAgentError error then
    createErrorResponse error requestId (statusCode error)
  else
    logger LError "Unexpected error in chat handler" ;;;
    (if hasContext then logger LInfo "Request analytics" else ret tt) ;;;
    createErrorResponse
      (AgentError "An unexpected error occurred" "UNEXPECTED_ERROR" 500 false)
      requestId 500.

Definition handleChat (request : Request.t) : JS Response.t :=
  requestId <- createRequestId ;;
  trackerStart <- Date_now ;;
  checkpoint "parse-start" ;;;
  match Request.body request with
  | InvalidJson => chatFailed requestId false (JsError "Unexpected token in JSON")
  | Json message optionalFieldsValid =>
      if negb (validMessage message optionalFieldsValid) then
        logger LWarn "Invalid request body" ;;;
        ret (json InvalidRequestBody 400 [("X-Request-ID"%string, requestId)])
      else
        try_catch
          (timestamp <- Date_now ;;
           logger LInfo "Chat request received" ;;;
           checkpoint "parse-end" ;;;
           checkpoint "agent-init-start" ;;;
           agent <- getAgent constructAgent awaitInFlight ;;
           checkpoint "agent-init-end" ;;;
           checkpoint "agent-run-start" ;;;
           result <- (if runIsFunction agent
                      then agentRun remoteRun (default "" message)
                      else throw (JsError "agent.run is not a function")) ;;
           checkpoint "agent-run-end" ;;;
           checkpoint "analytics-start" ;;;
           checkpoint "analytics-end" ;;;
           logger LInfo "Chat response sent" ;;;
           logger LInfo "Request analytics" ;;;
           ret (json (ChatBody result) 200 [("X-Request-ID"%string, requestId)]))
          (chatFailed requestId true)
  end.

Definition POST (request : Request.t) : JS Response.t :=
  withRateLimit request (handleChat request).

End Chat.

(** ** Reading the log *)

(** The breaker reports each assignment to [this.state] with a log line of
    its own; read back, the line names the state the breaker moved to. *)
Definition transitionOf (ev : Event) : option CircuitState :=
  match ev with
  | EvLog LInfo m =>
      if String.eqb m "Circuit breaker transitioning to half-open state"
      then Some half_open
      else if String.eqb m "Circuit breaker closed after successful execution"
      then Some closed
      else None
  | EvLog LWarn m =>
      if String.eqb m "Circuit breaker opened due to repeated failures"
      then Some open
      else None
  | _ => None
  end.

(** The most recent state transition recorded in a trace (newest first). *)
Fixpoint lastTransition (tr : list Event) : option CircuitState :=
  match tr with
  | [] => None
  | ev :: older =>
      match transitionOf ev with
      | Some s => Some s
      | None => lastTransition older
      end
  end.

(** How often the operation [name] was called. *)
Fixpoint invocations (name : string) (tr : list Event) : nat :=
  match tr with
  | [] => O
  | EvInvoke n :: older =>
      if String.eqb n name then S (invocations name older)
      else invocations name older
  | _ :: older => invocations name older
  end.

(** The delays awaited, oldest first. *)
Fixpoint sleeps (tr : list Event) : list Z :=
  match tr with
  | [] => []
  | EvSleep ms :: older => sleeps older ++ [ms]
  | _ :: older => sleeps older
  end.

(** How often a message was logged. *)
Fixpoint logged (message : string) (tr : list Event) : nat :=
  match tr with
  | [] => O
  | EvLog _ m :: older =>
      if String.eqb m message then S (logged message older)
      else logged message older
  | _ :: older => logged message older
  end.

(** A process as the modules leave it once loaded. *)
Definition boot (cfg : Config) (clock : nat → Z) : Process := {|
  world := {| clock := clock; ticks := O; trace := [] |};
  env := cfg;
  circuitBreaker :=
    newCircuitBreaker (CIRCUIT_BREAKER_THRESHOLD cfg) (CIRCUIT_BREAKER_TIMEOUT cfg);
  manager := newAgentManager;
  rateLimiter := newRateLimiter (RATE_LIMIT_REQUESTS cfg) (getRateLimitWindow cfg)
|}.

(** * Runs and what they maintain

    The definitions below are about the functions above: the runs the
    properties quantify over, the invariants they keep, and the concrete
    processes the properties are tried on. *)

(** ** Runs of the breaker *)

(** The reading the next [Date.now()] returns. *)
Definition now (p : Process) : Z := clock (world p) (ticks (world p)).

(** The i-th reading after that. *)
Definition reading (i : nat) (p : Process) : Z :=
  clock (world p) (ticks (world p) + i)%nat.

(** The clock never runs backwards. *)
Definition monotone (c : nat → Z) : Prop := ∀ i, c i ≤ c (S i).

(** An operation that throws whenever it is called. *)
Definition failing {T} (op : Operation T) : Prop :=
  ∀ p, ∃ e, op_result op p = Throw e.

(** One [execute] per operation, each awaited before the next starts. *)
Fixpoint executeAll {T} (ops : list (Operation T)) (p : Process)
  : list (Res T) * Process :=
  match ops with
  | [] => ([], p)
  | op :: rest =>
      let (r, p1) := execute (invoke op) p in
      let (rs, p2) := executeAll rest p1 in
      (r :: rs, p2)
  end.

(** The state in which [execute] calls the wrapped operation, once
    [canExecute] has let the call through. *)
Definition entered (p : Process) : Process :=
  (halfOpenGate (canExecute p).2).2.

(** The state an external operation leaves: its call is on record. *)
Definition called {T} (op : Operation T) (p : Process) : Process :=
  set_world (push (EvInvoke (op_name op))) p.

(** Where a breaker can be: between two calls of [execute], or inside one,
    while the wrapped operation is awaited. *)
Inductive Phase := Idle | InFlight.

(** The states of a process whose breaker was built with the given
    threshold and timeout and whose clock is [c], when the calls of
    [execute] follow one another.  [R_other] is the rest of the program:
    it leaves the breaker and its log lines alone. *)
Inductive Reachable (thr tmo : Z) (c : nat → Z) : Phase → Process → Prop :=
| R_boot p :
    circuitBreaker p = newCircuitBreaker thr tmo →
    clock (world p) = c →
    lastTransition (trace (world p)) = None →
    Reachable thr tmo c Idle p
| R_other ph p p' :
    Reachable thr tmo c ph p →
    circuitBreaker p' = circuitBreaker p →
    clock (world p') = clock (world p) →
    lastTransition (trace (world p')) = lastTransition (trace (world p)) →
    Reachable thr tmo c ph p'
| R_refused p :
    Reachable thr tmo c Idle p →
    (canExecute p).1 = Ok false →
    Reachable thr tmo c Idle (canExecute p).2
| R_admitted p :
    Reachable thr tmo c Idle p →
    (canExecute p).1 = Ok true →
    Reachable thr tmo c InFlight (entered p)
| R_success p :
    Reachable thr tmo c InFlight p →
    Reachable thr tmo c Idle (recordSuccess p).2
| R_failure p :
    Reachable thr tmo c InFlight p →
    Reachable thr tmo c Idle (recordFailure p).2.

(** The literal reading of the state invariant of the breaker. *)
Definition countTracksOpen (p : Process) : Prop :=
  threshold (circuitBreaker p) ≤ failureCount (circuitBreaker p)
  ↔ lastTransition (trace (world p)) = Some open.

(** The states the methods of the breaker lead to. *)

Definition halfOpened (p : Process) : Process :=
  set_world (push (EvLog LInfo "Circuit breaker transitioning to half-open state"))
    (set_circuitBreaker (set_state half_open) (set_world tick p)).

Definition succeeded (p : Process) : Process :=
  match state (circuitBreaker p) with
  | half_open =>
      set_world (push (EvLog LInfo "Circuit breaker closed after successful execution"))
        (set_circuitBreaker (λ b, set_state closed (set_failureCount 0 b)) p)
  | _ => set_circuitBreaker (set_failureCount 0) p
  end.

Definition failed (p : Process) : Process :=
  let b := circuitBreaker p in
  if threshold b <=? failureCount b + 1 then
    set_world (push (EvLog LWarn "Circuit breaker opened due to repeated failures"))
      (set_world (λ w, tick (tick w))
         (set_circuitBreaker
            (λ _, {| state := open;
                     failureCount := failureCount b + 1;
                     lastFailureTime := reading 0 p;
                     nextAttemptTime := reading 1 p + timeout b;
                     threshold := threshold b;
                     timeout := timeout b |}) p))
  else
    set_world tick
      (set_circuitBreaker
         (λ _, set_lastFailureTime (reading 0 p) (set_failureCount (failureCount b + 1) b)) p).


(** What sequential use maintains, for a breaker of threshold [thr] on
    clock [c]. *)
Definition breakerInv (thr tmo : Z) (c : nat → Z) (ph : Phase) (p : Process) : Prop :=
  let b := circuitBreaker p in
  threshold b = thr ∧ timeout b = tmo ∧ clock (world p) = c ∧
  match lastTransition (trace (world p)) with
  | None => state b = closed
  | Some s => state b = s
  end ∧
  match ph with
  | Idle =>
      match state b with
      | closed => failureCount b < thr
      | open => thr ≤ failureCount b
      | half_open => False
      end
  | InFlight =>
      match state b with
      | closed => failureCount b < thr
      | open => False
      | half_open => thr ≤ failureCount b
      end
  end.

(** *** A concrete run

    The process as booted with the default configuration, on a clock whose
    successive readings are a minute apart; five failed calls in a row trip
    the breaker, and the next call starts a probe. *)

Definition minuteClock : nat → Z := λ n, 1730000000000 + 60000 * Z.of_nat n.

Definition failOnce (p : Process) : Process := (recordFailure (entered p)).2.

Definition tripped : Process :=
  failOnce (failOnce (failOnce (failOnce (failOnce
    (boot (defaultConfig "sk-test") minuteClock))))).

Definition probing : Process := entered tripped.

(** A remote operation that fails whenever it is called. *)
Definition unreachableHost : Operation unit := {|
  op_name := "remote";
  op_result := λ _, Throw (JsError "connect ECONNREFUSED")
|}.

(** *** What a run of [withRetry] over a failing operation leaves behind *)

(** The delays [baseDelay * 2 ^ attempt] for [n] attempts from [attempt]. *)
Fixpoint backoff (baseDelay attempt : Z) (n : nat) : list Z :=
  match n with
  | O => []
  | S n' => baseDelay * 2 ^ attempt :: backoff baseDelay (attempt + 1) n'
  end.

(** A failed call, then [n] times: a warning, a delay, a failed call
    (newest first). *)
Fixpoint retryTrace (name : string) (baseDelay attempt : Z) (n : nat) : list Event :=
  match n with
  | O => [EvInvoke name]
  | S n' =>
      retryTrace name baseDelay (attempt + 1) n'
      ++ [EvSleep (baseDelay * 2 ^ attempt);
          EvLog LWarn (retryMessage attempt (baseDelay * 2 ^ attempt));
          EvInvoke name]
  end.

(** A process whose configuration carries no API key, and the library
    constructors and remote model as they behave when all is well. *)
Definition keyless : Process := boot (defaultConfig "") minuteClock.

Definition libraryOk : Operation unit := {|
  op_name := "agent";
  op_result := λ _, Ok tt
|}.

Definition modelOk (message : string) : Operation RawResult := {|
  op_name := "agentInstance.run";
  op_result := λ _, Ok {| raw_role := "assistant";
                          raw_content := CString ("You said: " +:+ message);
                          raw_toolCalls := None;
                          raw_result := CAbsent |}
|}.

(** No call is ever interleaved with another: there is nothing to await. *)
Definition nothingInFlight : JS AgentInstance :=
  throw (JsError "no initialization in flight").
(** What a limiter with its timer maintains: the last instant served lies
    between the last sweep and the next one, and no entry that the last
    sweep would have removed is left. *)
Definition schedInv (w upto : Z) (s : Scheduled) : Prop :=
  windowMs (limiter s) = w
  ∧ coherent upto (limiter s)
  ∧ nextSweep s - sweepInterval ≤ upto < nextSweep s
  ∧ ∀ key e, requests (limiter s) !! key = Some e →
             nextSweep s - sweepInterval ≤ resetTime e.

(** The answer of [checkLimit] when [current] is the entry in force. *)
Definition answer (maxRequests : Z) (current : Entry) : Limit.t :=
  let allowed := count current <? maxRequests in
  {| Limit.allowed := allowed;
     Limit.remaining :=
       if allowed then Z.max 0 (maxRequests - count current) - 1
       else Z.max 0 (maxRequests - count current);
     Limit.resetTime := resetTime current |}.

Definition bump (e : Entry) : Entry :=
  {| count := count e + 1; resetTime := resetTime e |}.

(** Seven requests of one client, with their instants. *)
Definition burst (identifier : string) (t1 t2 t3 t4 t5 t6 t7 : Z)
  : list (Z * Call) :=
  [(t1, CallCheck identifier); (t2, CallCheck identifier);
   (t3, CallCheck identifier); (t4, CallCheck identifier);
   (t5, CallCheck identifier); (t6, CallCheck identifier);
   (t7, CallCheck identifier)].

Definition granted (remaining resetTime : Z) : option Limit.t :=
  Some {| Limit.allowed := true;
          Limit.remaining := remaining;
          Limit.resetTime := resetTime |}.

Definition refused (remaining resetTime : Z) : option Limit.t :=
  Some {| Limit.allowed := false;
          Limit.remaining := remaining;
          Limit.resetTime := resetTime |}.

(** *** Concrete requests *)

(** A clock whose successive readings are a second apart. *)
Definition secondClock : nat → Z := λ n, 1730000000000 + 1000 * Z.of_nat n.

(** The process just booted, its agent not yet built. *)
Definition justBooted : Process := boot (defaultConfig "sk-test") secondClock.

(** A configuration that grants one request per minute. *)
Definition oneRequestPerMinute : Config := {|
  OPENAI_API_KEY := "sk-test";
  OPENAI_MODEL := "gpt-4o-mini";
  RATE_LIMIT_REQUESTS := 1;
  RATE_LIMIT_WINDOW := 60;
  MAX_RETRIES := 3;
  RETRY_DELAY_MS := 1000;
  CIRCUIT_BREAKER_THRESHOLD := 5;
  CIRCUIT_BREAKER_TIMEOUT := 60000
|}.

(** A well-formed chat request of the client at 203.0.113.7. *)
Definition hello : Request.t := {|
  Request.headers := {[ "x-forwarded-for"%string := "203.0.113.7"%string ]};
  Request.body := Json (Some "hello"%string) true
|}.

(** A request that carries no header at all. *)
Definition anonymous : Request.t := {|
  Request.headers := ∅;
  Request.body := Json (Some "hello"%string) true
|}.

(** The process when the clock reads [t]. *)
Definition bootedAt (t : Z) : Process := boot (defaultConfig "sk-test") (λ _, t).

(** The user agent [getClientIP] falls back on. *)
Definition userAgentOf (request : Request.t) : string :=
  let header := Request.headers request !! "user-agent"%string in
  if truthy header then default "" header else "unknown".

(** The request names its client by none of the three address headers. *)
Definition unaddressed (request : Request.t) : Prop :=
  truthy (Request.headers request !! "x-forwarded-for"%string) = false
  ∧ truthy (Request.headers request !! "x-real-ip"%string) = false
  ∧ truthy (Request.headers request !! "x-client-ip"%string) = false.

(** The identity of the client of [request] when the clock reads as in [p]. *)
Definition identityAt (request : Request.t) (p : Process) : Res string :=
  (getClientIP request p).1.

(** The position of a character in a string (its length when absent). *)
Fixpoint indexOf (c : ascii) (s : string) : N :=
  match s with
  | EmptyString => 0
  | String d rest => if Ascii.eqb c d then 0 else 1 + indexOf c rest
  end%N.

(** * Further runs

    More runs and invariants, for the properties of recovery, of the
    manager, of the limiter and its clients, and of the routes; and the
    health route, which the definitions above leave out. *)

(** An operation that answers [v] whenever it is called. *)
Definition answering {T} (op : Operation T) (v : T) : Prop :=
  ∀ p, op_result op p = Ok v.



(** A remote operation that answers whenever it is called. *)
Definition steadyHost : Operation unit := {|
  op_name := "remote";
  op_result := λ _, Ok tt
|}.

(** The agent [initializeAgent] builds for a given model. *)
Definition greetAgent (modelName : string) : AgentInstance := {|
  tools := ["greet"%string];
  runIsFunction := true;
  model := modelName
|}.

(** What an attempt at building the agent may change: with the answer
    [r], from [q] to [q'].  The handle is stored exactly when the attempt
    answers, and is the agent of the configured model; the configuration, the limiter and the other fields of the
    manager stay. *)
Definition attemptOutcome (r : Res AgentInstance) (q q' : Process) : Prop :=
  env q' = env q
  ∧ rateLimiter q' = rateLimiter q
  ∧ isInitializing (manager q') = isInitializing (manager q)
  ∧ initializationPromise (manager q') = initializationPromise (manager q)
  ∧ lastHealthCheck (manager q') = lastHealthCheck (manager q)
  ∧ match r with
    | Ok a => agent (manager q') = Some a ∧ a = greetAgent (OPENAI_MODEL (env q))
    | Throw _ => agent (manager q') = agent (manager q)
    end.

(** A process with its agent built, as a first request leaves it. *)
Definition serving : Process :=
  (getAgent libraryOk nothingInFlight justBooted).2.

(** The breaker is open and stays shut for the next [n] readings of the
    clock and the one after. *)
Definition heldOpen (n : nat) (p : Process) : Prop :=
  state (circuitBreaker p) = open
  ∧ ∀ i, (i ≤ n)%nat → reading i p < nextAttemptTime (circuitBreaker p).

(** The process of [justBooted] after five failures in a row: its breaker
    is open for the next minute, and the clock moves a second a reading. *)
Definition justTripped : Process :=
  failOnce (failOnce (failOnce (failOnce (failOnce justBooted)))).

(** ** The limiter and its clients *)

Definition caller (c : Call) : string :=
  match c with
  | CallCheck identifier | CallReset identifier => identifier
  end.

(** The calls made by the clients that [keep] selects. *)
Definition callsOf (keep : string → bool) (calls : list (Z * Call))
  : list (Z * Call) :=
  List.filter (λ nc, keep (caller nc.2)) calls.

(** The answers given to those clients, when all the calls are served. *)
Fixpoint answersTo (keep : string → bool) (calls : list (Z * Call))
  (s : Scheduled) : list (option Limit.t) :=
  match calls with
  | [] => []
  | (now, c) :: rest =>
      let (r, s1) := serve now c s in
      if keep (caller c) then r :: answersTo keep rest s1
      else answersTo keep rest s1
  end.

Definition only (identifier : string) : string → bool := String.eqb identifier.

Definition everyone : string → bool := λ _, true.

(** The limiter whose timer never fires: [checkLimit] and [reset], and no
    [cleanup] in between. *)
Definition serveBare (now : Z) (c : Call) (rl : InMemoryRateLimiter)
  : option Limit.t * InMemoryRateLimiter :=
  match c with
  | CallCheck identifier =>
      let (r, rl') := checkLimitAt now identifier rl in (Some r, rl')
  | CallReset identifier => (None, resetAt now identifier rl)
  end.

Fixpoint bareAll (calls : list (Z * Call)) (rl : InMemoryRateLimiter)
  : list (option Limit.t) * InMemoryRateLimiter :=
  match calls with
  | [] => ([], rl)
  | (now, c) :: rest =>
      let (r, rl1) := serveBare now c rl in
      let (rs, rl2) := bareAll rest rl1 in
      (r :: rs, rl2)
  end.

(** Every count on record is at least 1 and at most the quota. *)
Definition bounded (rl : InMemoryRateLimiter) : Prop :=
  ∀ key e, requests rl !! key = Some e → 1 ≤ count e ≤ maxRequests rl.

(** An answer is within the quota: a granted request is told a number of
    requests left from 0 to one less than the quota, a refused one is
    told 0. *)
Definition withinQuota (quota : Z) (r : option Limit.t) : Prop :=
  match r with
  | Some r =>
      if Limit.allowed r then 0 ≤ Limit.remaining r < quota
      else Limit.remaining r = 0
  | None => True
  end.

(** Two clients behind one limiter of two requests a minute, over three
    minutes and two sweeps. *)
Definition twoClients : list (Z * Call) :=
  [(1000, CallCheck "203.0.113.7"); (2000, CallCheck "198.51.100.2");
   (3000, CallCheck "203.0.113.7"); (4000, CallCheck "203.0.113.7");
   (5000, CallReset "198.51.100.2"); (61000, CallCheck "203.0.113.7");
   (62000, CallCheck "198.51.100.2"); (185000, CallCheck "203.0.113.7")]%string.

(** ** Requests *)

(** [request.json()] succeeds and the body passes [chatRequestSchema]. *)
Definition validRequest (request : Request.t) : bool :=
  match Request.body request with
  | InvalidJson => false
  | Json message optionalFieldsValid => validMessage message optionalFieldsValid
  end.


(** The process of [justTripped] with its agent at hand, as when the
    breaker was tripped by failed runs of the agent. *)
Definition trippedWhileServing : Process :=
  set_manager (set_agent (Some (greetAgent "gpt-4o-mini"))) justTripped.

(** ** The health route ([src/app/api/health/route.ts]) *)





Section HealthRoute.

(** [const START_TIME = Date.now()], read when the module is loaded, and
    [isProduction] of the configuration. *)
Variable START_TIME : Z.
Variable isProduction : bool.



End HealthRoute.



(** ** The address of a client *)



(** The message [handleChat] passes to the agent. *)
Definition messageOf (request : Request.t) : string :=
  match Request.body request with
  | Json message _ => default "" message
  | InvalidJson => ""
  end.


(** A model that is down. *)
Definition modelDown (message : string) : Operation RawResult := {|
  op_name := "agentInstance.run";
  op_result := λ _, Throw (JsError "fetch failed")
|}.

(** ** Bursts *)

Definition isGranted (r : option Limit.t) : bool :=
  match r with
  | Some l => Limit.allowed l
  | None => false
  end.

(** [n] requests of one client at the instant [t]. *)
Definition requestsAt (n : nat) (t : Z) (identifier : string) : list (Z * Call) :=
  replicate n (t, CallCheck identifier).

(** A handler that throws whenever it is run. *)
Definition brokenHandler : JS Response.t :=
  logger LInfo "handler entered" ;;;
  throw (JsError "handler failed").
(** * Properties *)

(** ** The monad *)

Lemma bind_ok {A B} (m : JS A) (k : A → JS B) p a p' :
  m p = (Ok a, p') → bind m k p = k a p'.
Proof. intros H. unfold bind. now rewrite H. Qed.

Lemma bind_throw {A B} (m : JS A) (k : A → JS B) p e p' :
  m p = (Throw e, p') → bind m k p = (Throw e, p').
Proof. intros H. unfold bind. now rewrite H. Qed.

(** *** Running the primitives of the monad *)

Lemma bind_ret {A B} (a : A) (k : A → JS B) q : bind (ret a) k q = k a q.
Proof. reflexivity. Qed.

Lemma bind_gets {A B} (f : Process → A) (k : A → JS B) q :
  bind (gets f) k q = k (f q) q.
Proof. reflexivity. Qed.

Lemma bind_Date_now {B} (k : Z → JS B) q :
  bind Date_now k q = k (now q) (set_world tick q).
Proof. reflexivity. Qed.

Lemma bind_logger {B} level message (k : unit → JS B) q :
  bind (logger level message) k q
  = k tt (set_world (push (EvLog level message)) q).
Proof. reflexivity. Qed.

Lemma bind_checkpoint {B} name (k : unit → JS B) q :
  bind (checkpoint name) k q
  = k tt (set_world (push (EvCheckpoint name)) (set_world tick q)).
Proof. reflexivity. Qed.

Lemma bind_createRequestId {B} (k : string → JS B) q :
  bind createRequestId k q = k ("req-" +:+ pretty (now q)) (set_world tick q).
Proof. reflexivity. Qed.

Lemma bind_bind {A B C} (m : JS A) (k : A → JS B) (h : B → JS C) q :
  bind (bind m k) h q = bind m (λ a, bind (k a) h) q.
Proof. unfold bind. destruct (m q) as [[a | e] q']; reflexivity. Qed.

Create Rewrite HintDb js.

#[local] Hint Rewrite @bind_ret @bind_gets @bind_Date_now @bind_logger
  @bind_checkpoint @bind_createRequestId : js.

(** ** The breaker, one method at a time *)

Lemma canExecute_eq p :
  canExecute p =
  match state (circuitBreaker p) with
  | open => (Ok (nextAttemptTime (circuitBreaker p) <=? now p), set_world tick p)
  | _ => (Ok true, p)
  end.
Proof.
  unfold canExecute, bind, gets. cbn.
  destruct (state (circuitBreaker p)); reflexivity.
Qed.

Lemma halfOpenGate_eq p :
  halfOpenGate p =
  match state (circuitBreaker p) with
  | open =>
      if nextAttemptTime (circuitBreaker p) <=? now p
      then (Ok tt, halfOpened p)
      else (Ok tt, set_world tick p)
  | _ => (Ok tt, p)
  end.
Proof.
  unfold halfOpenGate, bind, gets. cbn.
  destruct (state (circuitBreaker p)); try reflexivity.
  unfold now. destruct (_ <=? _); reflexivity.
Qed.

Lemma recordSuccess_eq p : recordSuccess p = (Ok tt, succeeded p).
Proof.
  unfold recordSuccess, succeeded, bind, gets, modify. cbn.
  destruct (state (circuitBreaker p)); reflexivity.
Qed.

Lemma recordFailure_eq p : recordFailure p = (Ok tt, failed p).
Proof.
  unfold recordFailure, failed, reading, bind, gets, modify. cbn.
  rewrite Nat.add_0_r, Nat.add_1_r.
  destruct (_ <=? _); reflexivity.
Qed.

Lemma execute_invoke {T} (op : Operation T) p :
  execute (invoke op) p =
  match (canExecute p).1 with
  | Ok true =>
      match op_result op (entered p) with
      | Ok r => (Ok r, succeeded (called op (entered p)))
      | Throw e => (Throw e, failed (called op (entered p)))
      end
  | _ => (Throw (CircuitBreakerError "Circuit breaker is open"), (canExecute p).2)
  end.
Proof.
  unfold execute, entered, bind at 1.
  destruct (canExecute p) as [[[]|e] p1] eqn:Hc; cbn [fst snd negb].
  - unfold try_catch, bind.
    destruct (halfOpenGate p1) as [[[]|e] p2] eqn:Hg; cbn [snd].
    + unfold invoke, called.
      destruct (op_result op p2); rewrite ?recordSuccess_eq, ?recordFailure_eq;
        reflexivity.
    + rewrite halfOpenGate_eq in Hg.
      destruct (state _); try destruct (_ <=? _); discriminate.
  - reflexivity.
  - rewrite canExecute_eq in Hc. destruct (state _); discriminate.
Qed.

(** [execute] on a closed breaker runs the function and records how it
    ended. *)
Lemma execute_closed {T} (fn : JS T) q :
  state (circuitBreaker q) = closed →
  execute fn q =
  match fn q with
  | (Ok r, q') => (Ok r, succeeded q')
  | (Throw e, q') => (Throw e, failed q')
  end.
Proof.
  intros Hs. unfold execute.
  rewrite (bind_ok _ _ _ true q) by (rewrite canExecute_eq, Hs; reflexivity).
  cbn [negb]. unfold try_catch.
  rewrite (bind_ok _ _ _ tt q) by (rewrite halfOpenGate_eq, Hs; reflexivity).
  unfold bind at 1. destruct (fn q) as [[r | e] q'].
  - unfold bind. now rewrite recordSuccess_eq.
  - unfold bind. now rewrite recordFailure_eq.
Qed.

(** ** Sequential use keeps the breaker consistent *)

Section Sequential.

Variables (thr tmo : Z) (c : nat → Z).
Hypothesis thr_pos : 0 < thr.
Hypothesis c_mono : monotone c.

Lemma entered_inv p :
  breakerInv thr tmo c Idle p → (canExecute p).1 = Ok true →
  breakerInv thr tmo c InFlight (entered p).
Proof.
  unfold breakerInv, entered. intros (Ht & Hm & Hc & Hl & Hi).
  rewrite canExecute_eq, halfOpenGate_eq.
  destruct (state (circuitBreaker p)) eqn:Hs; cbn [fst snd].
  - intros _. rewrite Hs. cbn [snd]. rewrite Hs. auto.
  - intros [= Hle].
    assert (Hle' : (nextAttemptTime (circuitBreaker p) <=?
                    now (set_world tick p)) = true).
    { apply Z.leb_le in Hle. apply Z.leb_le.
      unfold now in *. cbn. rewrite Hc in *.
      specialize (c_mono (ticks (world p))). lia. }
    change (circuitBreaker (set_world tick p)) with (circuitBreaker p).
    rewrite Hs, Hle'. cbn. auto.
  - contradiction.
Qed.

Lemma succeeded_inv p :
  breakerInv thr tmo c InFlight p → breakerInv thr tmo c Idle (succeeded p).
Proof.
  unfold breakerInv, succeeded. intros (Ht & Hm & Hc & Hl & Hi).
  destruct (state (circuitBreaker p)) eqn:Hs; cbn; rewrite ?Hs; auto.
  contradiction.
Qed.

Lemma failed_inv p :
  breakerInv thr tmo c InFlight p → breakerInv thr tmo c Idle (failed p).
Proof.
  unfold breakerInv, failed. intros (Ht & Hm & Hc & Hl & Hi).
  cbv zeta. rewrite Ht.
  destruct (thr <=? failureCount (circuitBreaker p) + 1) eqn:Hle; cbn.
  - apply Z.leb_le in Hle. auto.
  - apply Z.leb_gt in Hle.
    destruct (state (circuitBreaker p)) eqn:Hs; auto; lia.
Qed.

Lemma reachable_inv ph p :
  Reachable thr tmo c ph p → breakerInv thr tmo c ph p.
Proof.
  induction 1 as [p Hb Hc Hl | ph p p' _ IH Hb Hc Hl | p _ IH Hr
                 | p _ IH Ha | p _ IH | p _ IH].
  - unfold breakerInv. rewrite Hb, Hl. cbn. auto.
  - unfold breakerInv in *. rewrite Hb, Hc, Hl. exact IH.
  - revert Hr. rewrite canExecute_eq.
    destruct (state (circuitBreaker p)) eqn:Hs; cbn; try discriminate.
    intros _. unfold breakerInv in *. cbn. exact IH.
  - now apply entered_inv.
  - rewrite recordSuccess_eq. now apply succeeded_inv.
  - rewrite recordFailure_eq. now apply failed_inv.
Qed.

End Sequential.

Lemma minuteClock_monotone : monotone minuteClock.
Proof. intros i. unfold minuteClock. lia. Qed.

Lemma tripped_reachable : Reachable 5 60000 minuteClock Idle tripped.
Proof.
  unfold tripped, failOnce.
  repeat (apply R_failure; apply R_admitted; [| reflexivity]).
  apply R_boot; reflexivity.
Qed.

Lemma probing_reachable : Reachable 5 60000 minuteClock InFlight probing.
Proof.
  unfold probing. apply R_admitted; [apply tripped_reachable | reflexivity].
Qed.

(** C4, as stated, fails: once the time gate has passed, a call moves the
    breaker to half-open and awaits the probe; in that state the failure
    count is still at the threshold, while the most recent transition is the
    one to half-open, not to open. *)
Lemma breaker_invariant_fails_during_probe :
  Reachable 5 60000 minuteClock InFlight probing ∧
  state (circuitBreaker probing) = half_open ∧
  failureCount (circuitBreaker probing) = 5 ∧
  threshold (circuitBreaker probing) = 5 ∧
  lastTransition (trace (world probing)) = Some half_open ∧
  ¬ countTracksOpen probing.
Proof.
  split; [apply probing_reachable |].
  repeat (split; [reflexivity |]).
  unfold countTracksOpen. intros [H _].
  assert (Hc : threshold (circuitBreaker probing)
               ≤ failureCount (circuitBreaker probing)) by (vm_compute; discriminate).
  specialize (H Hc). vm_compute in H. discriminate.
Qed.

(** C4, amended: for a breaker with a positive threshold on a clock that
    never runs backwards, whose calls of [execute] follow one another:
    between two calls, [failureCount >= threshold] holds exactly when the
    most recent transition was to open, and exactly when the state is open;
    while a call is in flight, it holds exactly when the most recent
    transition was to half-open, that is while a probe is awaited. *)
Theorem breaker_invariant_between_calls thr tmo c ph p :
  0 < thr → monotone c → Reachable thr tmo c ph p →
  let b := circuitBreaker p in
  match ph with
  | Idle =>
      countTracksOpen p ∧ (threshold b ≤ failureCount b ↔ state b = open)
  | InFlight =>
      (threshold b ≤ failureCount b
       ↔ lastTransition (trace (world p)) = Some half_open)
      ∧ (threshold b ≤ failureCount b ↔ state b = half_open)
  end.
Proof.
  intros Hpos Hmono Hr.
  destruct (reachable_inv thr tmo c Hpos Hmono ph p Hr) as (Ht & _ & _ & Hl & Hi).
  unfold countTracksOpen. cbv zeta. rewrite Ht.
  destruct ph, (state (circuitBreaker p)) eqn:Hs,
    (lastTransition (trace (world p))) as [s|] eqn:Hlt;
    try contradiction; try discriminate; subst;
    repeat split; intros; try discriminate; try congruence; try lia.
Qed.

(** The process [tripped], between two calls. *)
Lemma breaker_invariant_between_calls_witness :
  countTracksOpen tripped ∧
  (threshold (circuitBreaker tripped) ≤ failureCount (circuitBreaker tripped)
   ↔ state (circuitBreaker tripped) = open).
Proof.
  apply (breaker_invariant_between_calls 5 60000 minuteClock Idle tripped).
  - lia.
  - intros i. unfold minuteClock. lia.
  - unfold tripped, failOnce.
    repeat (apply R_failure; apply R_admitted; [| reflexivity]).
    apply R_boot; reflexivity.
Defined.

(** ** Opening after [threshold] failures *)

Lemma execute_failing_closed {T} (op : Operation T) p e :
  state (circuitBreaker p) = closed → op_result op p = Throw e →
  execute (invoke op) p = (Throw e, failed (called op p)).
Proof.
  intros Hs He. rewrite execute_invoke. unfold entered.
  rewrite canExecute_eq, Hs. cbn [fst snd].
  rewrite halfOpenGate_eq, Hs. cbn [snd]. now rewrite He.
Qed.

Lemma failed_called_breaker {T} (op : Operation T) p :
  circuitBreaker (failed (called op p)) =
  let b := circuitBreaker p in
  if threshold b <=? failureCount b + 1 then
    {| state := open;
       failureCount := failureCount b + 1;
       lastFailureTime := reading 0 p;
       nextAttemptTime := reading 1 p + timeout b;
       threshold := threshold b;
       timeout := timeout b |}
  else set_lastFailureTime (reading 0 p) (set_failureCount (failureCount b + 1) b).
Proof.
  unfold failed, called. cbn.
  destruct (_ <=? _); reflexivity.
Qed.




(** ** The half-open probe *)


Lemma invocations_succeeded name p :
  invocations name (trace (world (succeeded p)))
  = invocations name (trace (world p)).
Proof. unfold succeeded. destruct (state _); reflexivity. Qed.

Lemma invocations_failed name p :
  invocations name (trace (world (failed p)))
  = invocations name (trace (world p)).
Proof. unfold failed. cbv zeta. destruct (_ <=? _); reflexivity. Qed.




(** ** Retrying *)

Lemma invocations_app name tr1 tr2 :
  invocations name (tr1 ++ tr2)
  = (invocations name tr1 + invocations name tr2)%nat.
Proof.
  induction tr1 as [|ev tr1 IH]; [reflexivity |].
  destruct ev; cbn; try exact IH.
  destruct (String.eqb _ _); cbn; now rewrite IH.
Qed.


Lemma invocations_retryTrace name d a n :
  invocations name (retryTrace name d a n) = S n.
Proof.
  revert a. induction n as [|n IH]; intros a; cbn.
  - now rewrite String.eqb_refl.
  - rewrite invocations_app, IH. cbn. rewrite String.eqb_refl. lia.
Qed.



(** The loop over an operation that always throws: every iteration calls
    it, and all but the last warn and wait. *)
Lemma retryLoop_failing {T} (op : Operation T) maxRetries baseDelay :
  failing op →
  ∀ n attempt lastError p,
    attempt + Z.of_nat n = maxRetries →
    ∃ q e,
      op_result op q = Throw e
      ∧ retryLoop (invoke op) maxRetries baseDelay (S n) attempt lastError p
        = (Throw e, called op q)
      ∧ trace (world (called op q))
        = retryTrace (op_name op) baseDelay attempt n ++ trace (world p).
Proof.
  intros Hfail. induction n as [|n IH]; intros attempt lastError p Hn.
  - destruct (Hfail p) as [e He]. exists p, e.
    split; [exact He |]. split; [| reflexivity].
    cbn [retryLoop]. unfold invoke at 1. rewrite He. fold (called op p).
    assert (Hlt : (attempt <? maxRetries) = false) by (apply Z.ltb_ge; lia).
    rewrite Hlt. reflexivity.
  - destruct (Hfail p) as [e0 He0].
    assert (Hlt : (attempt <? maxRetries) = true) by (apply Z.ltb_lt; lia).
    set (p1 := set_world (push (EvSleep (baseDelay * 2 ^ attempt)))
                 (set_world (push (EvLog LWarn
                    (retryMessage attempt (baseDelay * 2 ^ attempt))))
                    (called op p))).
    destruct (IH (attempt + 1) (Some e0) p1) as (q & e & He & Hrun & Htr); [lia |].
    exists q, e. split; [exact He |]. split.
    + change (retryLoop (invoke op) maxRetries baseDelay (S (S n)) attempt lastError p)
        with (match invoke op p with
              | (Ok result, p') => (Ok result, p')
              | (Throw error, p') =>
                  ((if attempt <? maxRetries then
                      let delay := baseDelay * 2 ^ attempt in
                      logger LWarn (retryMessage attempt delay) ;;;
                      sleep delay
                    else ret tt) ;;;
                   retryLoop (invoke op) maxRetries baseDelay (S n)
                     (attempt + 1) (Some error)) p'
              end).
      unfold invoke at 1. rewrite He0, Hlt. fold (called op p).
      exact Hrun.
    + rewrite Htr. cbn [retryTrace]. rewrite <- app_assoc. reflexivity.
Qed.



(** [withRetry] never looks at the error it caught: an operation that
    throws an error marked as not retryable is called as often as any
    other. *)
Lemma withRetry_ignores_isRetryable {T} (op : Operation T) message maxRetries baseDelay p :
  0 ≤ maxRetries →
  (∀ q, op_result op q = Throw (ConfigurationError message)) →
  (withRetry (invoke op) maxRetries baseDelay p).1
  = Throw (ConfigurationError message)
  ∧ invocations (op_name op)
      (trace (world (withRetry (invoke op) maxRetries baseDelay p).2))
    = (invocations (op_name op) (trace (world p)) + Z.to_nat (maxRetries + 1))%nat.
Proof.
  intros Hpos Hthrows.
  assert (Hfail : failing op) by (intros q; eexists; apply Hthrows).
  destruct (retryLoop_failing op maxRetries baseDelay Hfail
              (Z.to_nat maxRetries) 0 None p) as (q & e & He & Hrun & Htr); [lia |].
  unfold withRetry.
  replace (Z.to_nat (maxRetries + 1)) with (S (Z.to_nat maxRetries)) by lia.
  rewrite Hrun. cbn [fst snd]. rewrite Hthrows in He. injection He as <-.
  split; [reflexivity |].
  rewrite Htr, invocations_app, invocations_retryTrace. lia.
Qed.

(** *** Initialization without an API key *)

Lemma failed_breaker q :
  circuitBreaker (failed q) =
  let b := circuitBreaker q in
  if threshold b <=? failureCount b + 1 then
    {| state := open;
       failureCount := failureCount b + 1;
       lastFailureTime := reading 0 q;
       nextAttemptTime := reading 1 q + timeout b;
       threshold := threshold b;
       timeout := timeout b |}
  else set_lastFailureTime (reading 0 q) (set_failureCount (failureCount b + 1) b).
Proof. unfold failed. cbv zeta. destruct (_ <=? _); reflexivity. Qed.

Lemma failed_frame q :
  env (failed q) = env q ∧ manager (failed q) = manager q
  ∧ sleeps (trace (world (failed q))) = sleeps (trace (world q))
  ∧ ∀ m, m ≠ "Circuit breaker opened due to repeated failures"%string →
         logged m (trace (world (failed q))) = logged m (trace (world q)).
Proof.
  unfold failed. cbv zeta.
  destruct (_ <=? _); repeat split; try reflexivity.
  intros m Hm. cbn [world set_world trace push tick logged].
  apply String.eqb_neq in Hm. rewrite String.eqb_sym in Hm. now rewrite Hm.
Qed.







(** With a threshold of 3 and otherwise the same settings, the breaker
    opens at the third failure and the caller is thrown the circuit-open
    error of the fourth attempt instead. *)
Lemma configuration_error_is_masked :
  let cfg := {| OPENAI_API_KEY := "";
                OPENAI_MODEL := "gpt-4o-mini";
                RATE_LIMIT_REQUESTS := 100;
                RATE_LIMIT_WINDOW := 60;
                MAX_RETRIES := 3;
                RETRY_DELAY_MS := 1000;
                CIRCUIT_BREAKER_THRESHOLD := 3;
                CIRCUIT_BREAKER_TIMEOUT := 60000 |} in
  let run := initializeAgent libraryOk nothingInFlight (boot cfg secondClock) in
  run.1 = Throw (CircuitBreakerError "Circuit breaker is open")
  ∧ logged "Initializing agent..." (trace (world run.2)) = 3%nat
  ∧ state (circuitBreaker run.2) = open.
Proof. vm_compute. repeat split; reflexivity. Qed.

(** ** Keys of the rate limiter *)

Lemma colonFree_app s t :
  colonFree (s +:+ t) = colonFree s && colonFree t.
Proof.
  induction s as [|c s IH]; simpl; [reflexivity |].
  rewrite IH. now rewrite andb_assoc.
Qed.

Lemma pretty_N_go_colonFree x s :
  colonFree s = true → colonFree (pretty_N_go x s) = true.
Proof.
  revert s. induction (N.lt_wf_0 x) as [x _ IH]. intros s Hs.
  destruct (decide (x = 0%N)) as [-> | Hx].
  - now rewrite pretty_N_go_0.
  - rewrite pretty_N_go_step by lia.
    apply IH; [apply N.div_lt; lia |].
    cbn. rewrite Hs, andb_true_r.
    unfold pretty_N_char. repeat case_match; reflexivity.
Qed.

Lemma pretty_Z_colonFree (z : Z) : colonFree (pretty z) = true.
Proof.
  assert (HN : ∀ n : N, colonFree (pretty n) = true).
  { intros n. unfold pretty, pretty_N. case_decide; [reflexivity |].
    now apply pretty_N_go_colonFree. }
  destruct z as [|x|x]; [reflexivity | apply HN |].
  unfold pretty, pretty_Z. rewrite colonFree_app. cbn. apply HN.
Qed.

Lemma colon_split s1 s2 t1 t2 :
  colonFree t1 = true → colonFree t2 = true →
  s1 +:+ ":" +:+ t1 = s2 +:+ ":" +:+ t2 → s1 = s2 ∧ t1 = t2.
Proof.
  intros H1 H2. revert s2.
  induction s1 as [|c s1 IH]; intros [|c' s2] E.
  - injection E as E. auto.
  - injection E as Ec E. change ("" +:+ t1) with t1 in E. subst t1.
    rewrite colonFree_app in H1. simpl in H1.
    rewrite andb_false_r in H1. discriminate.
  - injection E as Ec E. change ("" +:+ t2) with t2 in E. subst t2.
    rewrite colonFree_app in H2. simpl in H2.
    rewrite andb_false_r in H2. discriminate.
  - injection E as Ec E. subst c'.
    apply IH in E as [-> ->]. auto.
Qed.

Lemma keyOf_inj id1 id2 k1 k2 :
  keyOf id1 k1 = keyOf id2 k2 → id1 = id2 ∧ k1 = k2.
Proof.
  unfold keyOf. intros H.
  apply colon_split in H as [-> H]; try apply pretty_Z_colonFree.
  split; [reflexivity |]. now apply (inj pretty).
Qed.

(** ** One call of [checkLimit] *)

(** When the stored entry of the window, if any, has not expired, the
    branch that resets the window is not taken. *)
Lemma checkLimitAt_current now id rl :
  let key := keyOf id (windowKey now (windowMs rl)) in
  let current :=
    default {| count := 0; resetTime := now + windowMs rl |} (requests rl !! key) in
  0 ≤ windowMs rl →
  (∀ e, requests rl !! key = Some e → now ≤ resetTime e) →
  checkLimitAt now id rl
  = (answer (maxRequests rl) current,
     set_requests
       (if count current <? maxRequests rl
        then <[key := bump current]> (requests rl)
        else requests rl) rl).
Proof.
  intros key current Hw Hfresh. unfold checkLimitAt. fold key.
  fold current.
  assert (Hexp : (resetTime current <? now) = false).
  { apply Z.ltb_ge. unfold current.
    destruct (requests rl !! key) as [e|] eqn:He; cbn; [now apply Hfresh | lia]. }
  rewrite Hexp. cbn [andb]. unfold answer, bump.
  destruct (count current <? maxRequests rl); reflexivity.
Qed.

Lemma coherent_mono t t' rl : coherent t rl → t ≤ t' → coherent t' rl.
Proof.
  intros H Ht key e He. destruct (H key e He) as (id & seen & ? & ? & ?).
  exists id, seen. repeat split; auto; lia.
Qed.

(** An entry found under the key of the window of [now] was created in
    that window, and is still current. *)
Lemma coherent_current t rl now id e :
  0 < windowMs rl → coherent t rl →
  requests rl !! keyOf id (windowKey now (windowMs rl)) = Some e →
  now < resetTime e.
Proof.
  intros Hw Hco He. destruct (Hco _ _ He) as (id' & seen & Hk & Hr & _).
  apply keyOf_inj in Hk as [_ Hk]. unfold windowKey in Hk.
  rewrite Hr.
  assert (H1 := Z.mul_div_le seen (windowMs rl) Hw).
  assert (H2 := Z.mul_succ_div_gt now (windowMs rl) Hw).
  rewrite <- Hk in H1. nia.
Qed.

(** No entry is on record for a window that starts after the last call. *)
Lemma coherent_future t rl id index :
  0 < windowMs rl → coherent t rl →
  windowKey t (windowMs rl) < index →
  requests rl !! keyOf id index = None.
Proof.
  intros Hw Hco Hlt.
  destruct (requests rl !! keyOf id index) as [e|] eqn:He; [| reflexivity].
  destruct (Hco _ _ He) as (id' & seen & Hk & _ & Hseen).
  apply keyOf_inj in Hk as [_ ->]. unfold windowKey in Hlt.
  assert (seen / windowMs rl ≤ t / windowMs rl) by (apply Z.div_le_mono; lia).
  lia.
Qed.

Lemma coherent_check t rl now id :
  0 < windowMs rl → coherent t rl → t ≤ now →
  coherent now (checkLimitAt now id rl).2.
Proof.
  intros Hw Hco Ht.
  rewrite checkLimitAt_current; [| lia |].
  2:{ intros e He. apply (coherent_current t) in He; auto. lia. }
  cbn [snd]. set (key := keyOf id (windowKey now (windowMs rl))).
  destruct (_ <? _); [| now apply (coherent_mono t)].
  intros k e. cbn. rewrite lookup_insert. case_decide as Hk.
  - intros [= <-]. subst k.
    destruct (requests rl !! key) as [e0|] eqn:He0; cbn.
    + destruct (Hco _ _ He0) as (id' & seen & ? & ? & ?).
      exists id', seen. repeat split; auto; lia.
    + exists id, now. repeat split; auto; lia.
  - intros He. destruct (Hco _ _ He) as (id' & seen & ? & ? & ?).
    exists id', seen. repeat split; auto; lia.
Qed.

Lemma coherent_reset t rl now id :
  coherent t rl → coherent t (resetAt now id rl).
Proof.
  intros Hco key e. cbn. intros He.
  apply lookup_delete_Some in He as [_ He]. exact (Hco _ _ He).
Qed.

Lemma coherent_cleanup t rl now :
  coherent t rl → coherent t (cleanupAt now rl).
Proof.
  intros Hco key e. cbn. intros He.
  apply map_lookup_filter_Some in He as [He _]. exact (Hco _ _ He).
Qed.

(** ** The sweep timer *)

Lemma runSweeps_nextSweep n s :
  nextSweep (runSweeps n s) = nextSweep s + Z.of_nat n * sweepInterval.
Proof.
  revert s. induction n as [|n IH]; intros s; cbn [runSweeps]; [lia |].
  rewrite IH. cbn [nextSweep]. lia.
Qed.

Lemma runSweeps_windowMs n s :
  windowMs (limiter (runSweeps n s)) = windowMs (limiter s).
Proof.
  revert s. induction n as [|n IH]; intros s; cbn [runSweeps]; [reflexivity |].
  now rewrite IH.
Qed.

Lemma runSweeps_maxRequests n s :
  maxRequests (limiter (runSweeps n s)) = maxRequests (limiter s).
Proof.
  revert s. induction n as [|n IH]; intros s; cbn [runSweeps]; [reflexivity |].
  now rewrite IH.
Qed.

(** A sweep only removes. *)
Lemma runSweeps_subset n s key e :
  requests (limiter (runSweeps n s)) !! key = Some e →
  requests (limiter s) !! key = Some e.
Proof.
  revert s. induction n as [|n IH]; intros s; cbn [runSweeps]; [auto |].
  intros He. apply IH in He. cbn in He.
  now apply map_lookup_filter_Some in He as [He _].
Qed.

(** What is left after a sweep had not expired when it ran. *)
Lemma runSweeps_fresh n s key e :
  (0 < n)%nat →
  requests (limiter (runSweeps n s)) !! key = Some e →
  nextSweep (runSweeps n s) - sweepInterval ≤ resetTime e.
Proof.
  revert s. induction n as [|n IH]; intros s Hn He; [lia |].
  cbn [runSweeps] in *. destruct n as [|n].
  - cbn in *. apply map_lookup_filter_Some in He as [_ Hp]. cbn in Hp. lia.
  - apply IH; [lia | exact He].
Qed.

(** An entry outlives the sweeps that run before it expires. *)
Lemma runSweeps_keeps n s key e :
  requests (limiter s) !! key = Some e →
  (n = O ∨ nextSweep s + (Z.of_nat n - 1) * sweepInterval ≤ resetTime e) →
  requests (limiter (runSweeps n s)) !! key = Some e.
Proof.
  revert s. induction n as [|n IH]; intros s He Hn; cbn [runSweeps]; [auto |].
  assert (Hs : 0 < sweepInterval) by reflexivity.
  apply IH.
  - cbn. apply map_lookup_filter_Some. split; [exact He |]. cbn.
    destruct Hn as [|Hn]; [lia | nia].
  - destruct n as [|n]; [now left | right]. cbn [nextSweep].
    destruct Hn as [|Hn]; [lia | lia].
Qed.

Lemma runSweeps_none n s key :
  requests (limiter s) !! key = None →
  requests (limiter (runSweeps n s)) !! key = None.
Proof.
  intros Hn.
  destruct (requests (limiter (runSweeps n s)) !! key) as [e|] eqn:He;
    [| reflexivity].
  apply runSweeps_subset in He. congruence.
Qed.

(** The sweeps due at [now] are those that have come up by then. *)
Lemma sweepsDue_spec now s :
  let n := sweepsDue now s in
  (n = O ∧ now < nextSweep s)
  ∨ ((0 < n)%nat
     ∧ nextSweep s + (Z.of_nat n - 1) * sweepInterval ≤ now
       < nextSweep s + Z.of_nat n * sweepInterval).
Proof.
  unfold sweepsDue. destruct (now <? nextSweep s) eqn:Hlt.
  - left. apply Z.ltb_lt in Hlt. auto.
  - right. apply Z.ltb_ge in Hlt.
    assert (Hq : 0 ≤ (now - nextSweep s) / sweepInterval)
      by (apply Z.div_pos; [lia | reflexivity]).
    assert (Hd := Z.mul_div_le (now - nextSweep s) sweepInterval eq_refl).
    assert (Hu := Z.mul_succ_div_gt (now - nextSweep s) sweepInterval eq_refl).
    rewrite Z2Nat.id by lia. split; [lia |]. unfold sweepInterval in *. lia.
Qed.

Lemma advance_inv w t s now :
  schedInv w t s → t ≤ now → schedInv w now (advance now s).
Proof.
  intros (Hw & Hco & Ht & Hfresh) Hle. unfold advance.
  assert (Hdue := sweepsDue_spec now s). cbv zeta in Hdue.
  set (n := sweepsDue now s) in *.
  assert (Hco' : coherent now (limiter (runSweeps n s))).
  { intros key e He. apply runSweeps_subset in He.
    rewrite runSweeps_windowMs.
    destruct (Hco key e He) as (id & seen & ? & ? & ?).
    exists id, seen. repeat split; auto; lia. }
  repeat split.
  - now rewrite runSweeps_windowMs.
  - exact Hco'.
  - rewrite runSweeps_nextSweep. destruct Hdue as [[-> ?] | [? ?]]; lia.
  - rewrite runSweeps_nextSweep. destruct Hdue as [[-> ?] | [? ?]]; lia.
  - intros key e He. destruct Hdue as [[Hn ?] | [Hn ?]].
    + rewrite Hn in *. cbn in *. now apply (Hfresh key).
    + now apply (runSweeps_fresh n s key).
Qed.

(** The sweeps that run on the way to [now] leave the window of [now]
    alone. *)
Lemma advance_lookup w t s now id :
  0 < w → schedInv w t s → t ≤ now →
  requests (limiter (advance now s)) !! keyOf id (windowKey now w)
  = requests (limiter s) !! keyOf id (windowKey now w).
Proof.
  intros Hpos (Hw & Hco & Ht & Hfresh) Hle. unfold advance.
  destruct (requests (limiter s) !! keyOf id (windowKey now w)) as [e|] eqn:He.
  - apply runSweeps_keeps; [exact He |].
    assert (Hcur : now < resetTime e).
    { apply (coherent_current t (limiter s) now id); rewrite ?Hw; auto. }
    destruct (sweepsDue_spec now s) as [[-> ?] | [? ?]]; [now left | right; lia].
  - now apply runSweeps_none.
Qed.

Lemma construct_inv startedAt maxRequests w :
  schedInv w startedAt (construct startedAt maxRequests w).
Proof.
  repeat split; cbn; try (unfold sweepInterval; lia).
  - intros key e He. cbn in He. rewrite lookup_empty in He. discriminate.
  - intros key e He. rewrite lookup_empty in He. discriminate.
Qed.

(** ** Serving calls *)

Lemma serve_check w t s now id :
  0 < w → schedInv w t s → t ≤ now →
  let key := keyOf id (windowKey now w) in
  let current :=
    default {| count := 0; resetTime := now + w |} (requests (limiter s) !! key) in
  (serve now (CallCheck id) s).1 = Some (answer (maxRequests (limiter s)) current)
  ∧ requests (limiter (serve now (CallCheck id) s).2) !! key
    = (if count current <? maxRequests (limiter s)
       then Some (bump current) else requests (limiter s) !! key)
  ∧ maxRequests (limiter (serve now (CallCheck id) s).2) = maxRequests (limiter s)
  ∧ schedInv w now (serve now (CallCheck id) s).2.
Proof.
  intros Hpos Hinv Hle key current. subst current key.
  assert (Hinv' := advance_inv w t s now Hinv Hle).
  assert (Hlook := advance_lookup w t s now id Hpos Hinv Hle).
  destruct Hinv' as (Hw & Hco & Ht & Hfresh).
  assert (Hmax : maxRequests (limiter (advance now s)) = maxRequests (limiter s))
    by apply runSweeps_maxRequests.
  assert (Hcheck := checkLimitAt_current now id (limiter (advance now s))).
  cbv zeta in Hcheck. rewrite Hw, Hlook, Hmax in Hcheck.
  assert (Hcoh := coherent_check now (limiter (advance now s)) now id).
  assert (Hcur : ∀ e, requests (limiter s) !! keyOf id (windowKey now w) = Some e
                      → now ≤ resetTime e).
  { intros e He. rewrite <- Hlook, <- Hw in He.
    apply (coherent_current now (limiter (advance now s)) now id) in He;
      rewrite ?Hw; auto; lia. }
  specialize (Hcheck ltac:(lia) Hcur).
  rewrite Hcheck in Hcoh. cbn [snd] in Hcoh.
  unfold serve. rewrite Hcheck.
  cbn [fst snd limiter nextSweep].
  split; [reflexivity |]. split.
  { cbn. destruct (_ <? _); [apply lookup_insert_eq | exact Hlook]. }
  split; [exact Hmax |].
  repeat split; cbn [limiter nextSweep]; try lia.
  - exact Hw.
  - apply Hcoh; [rewrite Hw | | ]; auto; lia.
  - intros k e. cbn. destruct (_ <? _); [| apply Hfresh].
    rewrite lookup_insert. case_decide as Hk; [| apply Hfresh].
    intros [= <-]. cbn.
    destruct (requests (limiter s) !! keyOf id (windowKey now w)) as [e0|] eqn:He0;
      cbn.
    + apply (Hfresh (keyOf id (windowKey now w))). now rewrite Hlook.
    + lia.
Qed.

Lemma serve_inv w t s now c :
  0 < w → schedInv w t s → t ≤ now → schedInv w now (serve now c s).2.
Proof.
  intros Hpos Hinv Hle. destruct c as [id | id].
  - now apply (serve_check w t s now id).
  - destruct (advance_inv w t s now Hinv Hle) as (Hw & Hco & Ht & Hfresh).
    unfold serve. cbn [snd]. repeat split; cbn [limiter nextSweep]; try lia.
    + exact Hw.
    + now apply coherent_reset.
    + intros k e. cbn. intros He.
      apply lookup_delete_Some in He as [_ He]. now apply (Hfresh k).
Qed.

Lemma serveAll_inv w calls :
  0 < w → ∀ s t upto,
    schedInv w t s → chronological t calls upto →
    schedInv w upto (advance upto (serveAll calls s).2).
Proof.
  intros Hpos. induction calls as [|[now c] rest IH]; intros s t upto Hinv Hch.
  - cbn in *. now apply (advance_inv w t).
  - cbn [serveAll chronological] in *. destruct Hch as [Hle Hch].
    destruct (serve now c s) as [r s1] eqn:Hs.
    destruct (serveAll rest s1) as [rs s2] eqn:Hr. cbn [snd].
    replace s2 with (serveAll rest s1).2 by now rewrite Hr.
    apply (IH s1 now); [| exact Hch].
    replace s1 with (serve now c s).2 by now rewrite Hs.
    now apply (serve_inv w t).
Qed.

Lemma limiterAt_inv startedAt maxRequests w calls upto :
  0 < w → chronological startedAt calls upto →
  schedInv w upto
    (advance upto (serveAll calls (construct startedAt maxRequests w)).2).
Proof.
  intros Hpos Hch. apply (serveAll_inv w calls Hpos _ startedAt); [| exact Hch].
  apply construct_inv.
Qed.

(** ** The lifetime of an entry *)

(** C5, as stated, fails.  With the default window of one minute, a limiter
    constructed at 30000 sweeps at 90000, 150000, 210000.  A first request
    at 119999 falls in the window that ends at 120000, and its entry gets
    [resetTime] 179999: the sweep at 150000 keeps it, and at 200000, more
    than a sweep interval after the end of its window, it is still there. *)
Lemma entry_outlives_window_bound :
  let rl := limiterAt 30000 100 60000 [(119999, CallCheck "203.0.113.7")] 200000 in
  chronological 30000 [(119999, CallCheck "203.0.113.7")] 200000
  ∧ requests rl !! keyOf "203.0.113.7" 1
    = Some {| count := 1; resetTime := 179999 |}
  ∧ (1 + 1) * windowMs rl + sweepInterval = 180000
  ∧ ¬ withinWindowBound rl 200000.
Proof.
  intros rl.
  assert (Hl : requests rl !! keyOf "203.0.113.7" 1
               = Some {| count := 1; resetTime := 179999 |})
    by (vm_compute; reflexivity).
  split; [cbn; lia |]. split; [exact Hl |]. split; [reflexivity |].
  intros H. specialize (H _ _ _ Hl).
  change (windowMs rl) with 60000 in H. unfold sweepInterval in H. lia.
Qed.

(** C5, amended: an entry found in the map under the key of window [index]
    carries the instant of the first request of that window plus the window
    length as its [resetTime], which lies from the end of the window up to
    one window length later; it is found there less than one sweep interval
    after its [resetTime], hence less than one window length plus one sweep
    interval after the end of its window, and at no later instant. *)
Theorem entry_lifetime_bound startedAt maxRequests w calls upto id index e :
  0 < w → chronological startedAt calls upto →
  requests (limiterAt startedAt maxRequests w calls upto) !! keyOf id index
  = Some e →
  (index + 1) * w ≤ resetTime e < (index + 2) * w
  ∧ upto < resetTime e + sweepInterval
  ∧ upto < (index + 1) * w + w + sweepInterval.
Proof.
  intros Hpos Hch He. unfold limiterAt in He.
  destruct (limiterAt_inv startedAt maxRequests w calls upto Hpos Hch)
    as (Hw & Hco & Ht & Hfresh).
  assert (Hf := Hfresh _ _ He).
  destruct (Hco _ _ He) as (id' & seen & Hk & Hr & _).
  apply keyOf_inj in Hk as [_ ->]. rewrite Hw in *. unfold windowKey.
  assert (H1 := Z.mul_div_le seen w Hpos).
  assert (H2 := Z.mul_succ_div_gt seen w Hpos).
  split; [nia |]. split; [lia | nia].
Qed.

(** The entry of the request made at 119999, looked up at 200000. *)
Lemma entry_lifetime_bound_witness :
  (1 + 1) * 60000 ≤ resetTime {| count := 1; resetTime := 179999 |}
  < (1 + 2) * 60000
  ∧ 200000 < resetTime {| count := 1; resetTime := 179999 |} + sweepInterval
  ∧ 200000 < (1 + 1) * 60000 + 60000 + sweepInterval.
Proof.
  apply (entry_lifetime_bound 30000 100 60000
           [(119999, CallCheck "203.0.113.7")] 200000 "203.0.113.7" 1).
  - lia.
  - cbn. lia.
  - vm_compute. reflexivity.
Defined.

(** ** Fixed-window admission *)

Lemma serveAll_cons now c rest s :
  (serveAll ((now, c) :: rest) s).1
  = (serve now c s).1 :: (serveAll rest (serve now c s).2).1.
Proof.
  cbn [serveAll]. destruct (serve now c s) as [r s1]. cbn [fst snd].
  destruct (serveAll rest s1) as [rs s2]. reflexivity.
Qed.

(** A request in a window that has an entry on record. *)
Lemma serve_check_known w t s now id max cnt rt :
  0 < w → schedInv w t s → t ≤ now →
  maxRequests (limiter s) = max →
  requests (limiter s) !! keyOf id (windowKey now w)
  = Some {| count := cnt; resetTime := rt |} →
  let s' := (serve now (CallCheck id) s).2 in
  (serve now (CallCheck id) s).1
  = Some (answer max {| count := cnt; resetTime := rt |})
  ∧ schedInv w now s'
  ∧ maxRequests (limiter s') = max
  ∧ requests (limiter s') !! keyOf id (windowKey now w)
    = Some {| count := if cnt <? max then cnt + 1 else cnt; resetTime := rt |}.
Proof.
  intros Hpos Hinv Hle Hmax Hl s'.
  destruct (serve_check w t s now id Hpos Hinv Hle) as (Ha & Hn & Hm & Hi).
  rewrite Hl, Hmax in *. cbn [from_option Datatypes.id count] in *.
  split; [exact Ha |]. split; [exact Hi |]. split; [exact Hm |].
  unfold s'. rewrite Hn. destruct (cnt <? max); reflexivity.
Qed.

(** The first request of a window. *)
Lemma serve_check_first w t s now id max :
  0 < w → schedInv w t s → t ≤ now →
  maxRequests (limiter s) = max →
  requests (limiter s) !! keyOf id (windowKey now w) = None →
  let s' := (serve now (CallCheck id) s).2 in
  (serve now (CallCheck id) s).1
  = Some (answer max {| count := 0; resetTime := now + w |})
  ∧ schedInv w now s'
  ∧ maxRequests (limiter s') = max
  ∧ (0 < max →
     requests (limiter s') !! keyOf id (windowKey now w)
     = Some {| count := 1; resetTime := now + w |}).
Proof.
  intros Hpos Hinv Hle Hmax Hl s'.
  destruct (serve_check w t s now id Hpos Hinv Hle) as (Ha & Hn & Hm & Hi).
  rewrite Hl, Hmax in *. cbn [from_option Datatypes.id count] in *.
  split; [exact Ha |]. split; [exact Hi |]. split; [exact Hm |].
  intros H0. unfold s'. rewrite Hn.
  apply Z.ltb_lt in H0. now rewrite H0.
Qed.

Lemma windowKey_between w a b c :
  0 < w → a ≤ b ≤ c → windowKey c w = windowKey a w →
  windowKey b w = windowKey a w.
Proof.
  unfold windowKey. intros Hw [Hab Hbc] Hk.
  assert (a / w ≤ b / w) by (apply Z.div_le_mono; lia).
  assert (b / w ≤ c / w) by (apply Z.div_le_mono; lia).
  lia.
Qed.

(** C9: (1) on a limiter as its calls have left it, [checkLimit] allows a
    request exactly when the count on record for the current window is
    below [maxRequests]; an allowed request adds one to that count and is
    told the quota left after it; a refused one changes nothing.
    (2) With [maxRequests = 5], six requests of one client in one window
    followed by one in a later window are answered: allowed with 4, 3, 2,
    1, 0 remaining, refused with 0 remaining, allowed with 4 remaining. *)
Theorem fixed_window_admission :
  (∀ startedAt quota w calls now id,
     0 < w → chronological startedAt calls now →
     let rl := limiterAt startedAt quota w calls now in
     let n := windowCount now id rl in
     let r := (checkLimitAt now id rl).1 in
     let rl' := (checkLimitAt now id rl).2 in
     Limit.allowed r = (n <? maxRequests rl)
     ∧ (Limit.allowed r = true →
        windowCount now id rl' = n + 1
        ∧ Limit.remaining r = Z.max 0 (maxRequests rl - (n + 1)))
     ∧ (Limit.allowed r = false →
        rl' = rl ∧ Limit.remaining r = 0))
  ∧ (∀ id startedAt w t1 t2 t3 t4 t5 t6 t7,
       0 < w →
       startedAt ≤ t1 ∧ t1 ≤ t2 ∧ t2 ≤ t3 ∧ t3 ≤ t4 ∧ t4 ≤ t5 ∧ t5 ≤ t6 ∧ t6 ≤ t7 →
       windowKey t6 w = windowKey t1 w →
       windowKey t1 w < windowKey t7 w →
       (serveAll (burst id t1 t2 t3 t4 t5 t6 t7) (construct startedAt 5 w)).1
       = [granted 4 (t1 + w); granted 3 (t1 + w); granted 2 (t1 + w);
          granted 1 (t1 + w); granted 0 (t1 + w); refused 0 (t1 + w);
          granted 4 (t7 + w)]).
Proof.
  split.
  - intros startedAt quota w calls now id Hpos Hch rl n r rl'.
    destruct (limiterAt_inv startedAt quota w calls now Hpos Hch)
      as (Hw & Hco & _ & _).
    fold (limiterAt startedAt quota w calls now) in Hw, Hco. fold rl in Hw, Hco.
    assert (Hcheck := checkLimitAt_current now id rl). cbv zeta in Hcheck.
    assert (Hcur : ∀ e, requests rl !! keyOf id (windowKey now (windowMs rl)) = Some e
                        → now ≤ resetTime e).
    { intros e He. apply (coherent_current now rl now id) in He; auto; lia. }
    specialize (Hcheck ltac:(lia) Hcur).
    unfold r, rl', n, windowCount. rewrite Hcheck. cbn [fst snd].
    unfold answer. cbn [Limit.allowed Limit.remaining].
    destruct (requests rl !! keyOf id (windowKey now (windowMs rl))) as [e|] eqn:He;
      cbn [from_option Datatypes.id count].
    + split; [reflexivity |]. split.
      * intros Hok. rewrite Hok. cbn. rewrite lookup_insert_eq. cbn.
        apply Z.ltb_lt in Hok. split; lia.
      * intros Hno. rewrite Hno. apply Z.ltb_ge in Hno.
        split; [destruct rl; reflexivity | lia].
    + split; [reflexivity |]. split.
      * intros Hok. rewrite Hok. cbn. rewrite lookup_insert_eq. cbn.
        apply Z.ltb_lt in Hok. split; lia.
      * intros Hno. rewrite Hno. apply Z.ltb_ge in Hno.
        split; [destruct rl; reflexivity | lia].
  - intros id startedAt w t1 t2 t3 t4 t5 t6 t7 Hpos
      (H1 & H2 & H3 & H4 & H5 & H6 & H7) Hsame Hnext.
    assert (K2 : windowKey t2 w = windowKey t1 w)
      by (apply (windowKey_between w t1 t2 t6); auto; lia).
    assert (K3 : windowKey t3 w = windowKey t1 w)
      by (apply (windowKey_between w t1 t3 t6); auto; lia).
    assert (K4 : windowKey t4 w = windowKey t1 w)
      by (apply (windowKey_between w t1 t4 t6); auto; lia).
    assert (K5 : windowKey t5 w = windowKey t1 w)
      by (apply (windowKey_between w t1 t5 t6); auto; lia).
    set (s0 := construct startedAt 5 w).
    assert (I0 := construct_inv startedAt 5 w). fold s0 in I0.
    destruct (serve_check_first w startedAt s0 t1 id 5 Hpos I0 H1 eq_refl)
      as (A1 & I1 & M1 & L1); [apply lookup_empty |].
    specialize (L1 ltac:(lia)). set (s1 := (serve t1 (CallCheck id) s0).2) in *.
    rewrite <- K2 in L1.
    destruct (serve_check_known w t1 s1 t2 id 5 _ _ Hpos I1 H2 M1 L1)
      as (A2 & I2 & M2 & L2).
    set (s2 := (serve t2 (CallCheck id) s1).2) in *.
    rewrite K2, <- K3 in L2.
    destruct (serve_check_known w t2 s2 t3 id 5 _ _ Hpos I2 H3 M2 L2)
      as (A3 & I3 & M3 & L3).
    set (s3 := (serve t3 (CallCheck id) s2).2) in *.
    rewrite K3, <- K4 in L3.
    destruct (serve_check_known w t3 s3 t4 id 5 _ _ Hpos I3 H4 M3 L3)
      as (A4 & I4 & M4 & L4).
    set (s4 := (serve t4 (CallCheck id) s3).2) in *.
    rewrite K4, <- K5 in L4.
    destruct (serve_check_known w t4 s4 t5 id 5 _ _ Hpos I4 H5 M4 L4)
      as (A5 & I5 & M5 & L5).
    set (s5 := (serve t5 (CallCheck id) s4).2) in *.
    rewrite K5, <- Hsame in L5.
    destruct (serve_check_known w t5 s5 t6 id 5 _ _ Hpos I5 H6 M5 L5)
      as (A6 & I6 & M6 & L6).
    set (s6 := (serve t6 (CallCheck id) s5).2) in *.
    assert (L7 : requests (limiter s6) !! keyOf id (windowKey t7 w) = None).
    { destruct I6 as (Hw & Hco & _ & _).
      apply (coherent_future t6); rewrite ?Hw; auto; lia. }
    destruct (serve_check_first w t6 s6 t7 id 5 Hpos I6 H7 M6 L7)
      as (A7 & _ & _ & _).
    unfold burst. rewrite !serveAll_cons.
    fold s0. rewrite A1. fold s1. rewrite A2. fold s2. rewrite A3. fold s3.
    rewrite A4. fold s4. rewrite A5. fold s5. rewrite A6. fold s6. rewrite A7.
    reflexivity.
Qed.

(** A quota of 5 per second: six requests in the sixth second, one in the
    seventh. *)
Lemma fixed_window_admission_witness :
  (serveAll (burst "203.0.113.7" 5000 5100 5200 5300 5400 5999 6000)
     (construct 0 5 1000)).1
  = [granted 4 6000; granted 3 6000; granted 2 6000; granted 1 6000;
     granted 0 6000; refused 0 6000; granted 4 7000].
Proof.
  apply (proj2 fixed_window_admission "203.0.113.7" 0 1000
           5000 5100 5200 5300 5400 5999 6000).
  - lia.
  - lia.
  - reflexivity.
  - vm_compute. reflexivity.
Defined.

(** ** Health *)

(** What [getHealth] does, branch by branch. *)
Lemma getHealth_eq p :
  getHealth p =
  let m := manager p in
  if now p - lastHealthCheck m <? 30000 then
    (Ok {| status := if agent m is Some _ then healthy else unhealthy;
           checkedAt := lastHealthCheck m;
           error := None |},
     set_world tick p)
  else
    (Ok match agent m with
        | None => {| status := initializing;
                     checkedAt := now p;
                     error := Some "Agent not initialized"%string |}
        | Some a => {| status := if (0 <? Z.of_nat (length (tools a)))
                                    && runIsFunction a
                                 then healthy else unhealthy;
                       checkedAt := now p;
                       error := None |}
        end,
     set_manager (set_lastHealthCheck (now p)) (set_world tick p)).
Proof.
  unfold getHealth, bind, gets, modify, try_catch, now. cbn.
  destruct (_ <? _); [reflexivity |].
  destruct (agent (manager p)); reflexivity.
Qed.

(** C3, at the failing inputs: while the agent is not built, a call that
    recomputes the status returns [initializing]; the next call, when it
    comes within 30 seconds of the first, does not return that status but
    [unhealthy], although nothing has changed in between. *)
Theorem health_within_30s_is_not_the_cached_status p :
  agent (manager p) = None →
  30000 ≤ now p - lastHealthCheck (manager p) →
  reading 1 p - now p < 30000 →
  let first := getHealth p in
  let second := getHealth first.2 in
  first.1 = Ok {| status := initializing;
                  checkedAt := now p;
                  error := Some "Agent not initialized"%string |}
  ∧ second.1 = Ok {| status := unhealthy;
                     checkedAt := now p;
                     error := None |}
  ∧ manager second.2 = manager first.2.
Proof.
  intros Hagent Hstale Hsoon first second. unfold second, first.
  rewrite (getHealth_eq p). cbv zeta. rewrite Hagent.
  assert (H1 : (now p - lastHealthCheck (manager p) <? 30000) = false)
    by (apply Z.ltb_ge; lia).
  rewrite H1. cbn [fst snd]. split; [reflexivity |].
  rewrite getHealth_eq. cbv zeta.
  assert (H2 : (now (set_manager (set_lastHealthCheck (now p)) (set_world tick p))
                - lastHealthCheck
                    (manager (set_manager (set_lastHealthCheck (now p))
                                (set_world tick p))) <? 30000) = true).
  { apply Z.ltb_lt. unfold reading, now in *. cbn.
    replace (S (ticks (world p))) with (ticks (world p) + 1)%nat by lia. lia. }
  rewrite H2. cbn. rewrite Hagent. split; reflexivity.
Qed.

(** Two calls a second apart on the process just booted. *)
Lemma health_within_30s_is_not_the_cached_status_witness :
  (getHealth justBooted).1
  = Ok {| status := initializing;
          checkedAt := 1730000000000;
          error := Some "Agent not initialized"%string |}
  ∧ (getHealth (getHealth justBooted).2).1
    = Ok {| status := unhealthy; checkedAt := 1730000000000; error := None |}
  ∧ manager (getHealth (getHealth justBooted).2).2
    = manager (getHealth justBooted).2.
Proof.
  apply (health_within_30s_is_not_the_cached_status justBooted).
  - reflexivity.
  - vm_compute. discriminate.
  - reflexivity.
Defined.

(** ** The rate-limit middleware *)

(** Whatever the limiter answers, the handler has run by the time the
    answer is looked at. *)
Lemma withRateLimit_refused request handler p ip p1 lr p2 response p3 :
  getClientIP request p = (Ok ip, p1) →
  checkLimit ip p1 = (Ok lr, p2) →
  Limit.allowed lr = false →
  handler p2 = (Ok response, p3) →
  ∃ reply,
    withRateLimit request handler p
    = (Ok reply,
       set_world tick (set_world (push (EvLog LWarn "Rate limit exceeded")) p3))
    ∧ Response.status reply = 429.
Proof.
  intros Hip Hcl Hno Hh. eexists. split.
  - unfold withRateLimit, try_catch.
    rewrite (bind_ok _ _ _ _ _ Hip), (bind_ok _ _ _ _ _ Hcl),
      (bind_ok _ _ _ _ _ Hh).
    unfold bind, gets. cbn. rewrite Hno. cbn. reflexivity.
  - reflexivity.
Qed.

Lemma agentRun_closed remoteRun message q :
  state (circuitBreaker q) = closed →
  ∃ r q',
    agentRun remoteRun message q = (r, q')
    ∧ invocations (op_name (remoteRun message)) (trace (world q'))
      = S (invocations (op_name (remoteRun message)) (trace (world q))).
Proof.
  intros Hs. unfold agentRun. rewrite (execute_closed _ q Hs).
  unfold bind at 1. cbn [Date_now]. unfold try_catch, bind at 1, invoke at 1.
  destruct (op_result (remoteRun message) (set_world tick q)) as [raw | e].
  - eexists _, _. split; [reflexivity |].
    rewrite invocations_succeeded. cbn. now rewrite String.eqb_refl.
  - eexists _, _. split; [reflexivity |].
    rewrite invocations_failed. cbn. now rewrite String.eqb_refl.
Qed.

Lemma getAgent_ready constructAgent awaitInFlight q a :
  agent (manager q) = Some a →
  getAgent constructAgent awaitInFlight q = (Ok a, q).
Proof. intros H. unfold getAgent. rewrite bind_gets, H. reflexivity. Qed.

Lemma createErrorResponse_eq error requestId status q :
  createErrorResponse error requestId status q
  = (Ok (json (ErrorBody (code error)) status [("X-Request-ID"%string, requestId)]),
     set_world (push (EvLog LError "Request failed")) q).
Proof. reflexivity. Qed.

(** A well-formed request, once the agent is built and while the breaker
    is closed, reaches the remote model: [handleChat] answers, and the
    call is on record. *)
Lemma handleChat_calls_model constructAgent remoteRun awaitInFlight request q message a :
  Request.body request = Json (Some message) true →
  validMessage (Some message) true = true →
  agent (manager q) = Some a → runIsFunction a = true →
  state (circuitBreaker q) = closed →
  ∃ response q',
    handleChat constructAgent remoteRun awaitInFlight request q = (Ok response, q')
    ∧ invocations (op_name (remoteRun message)) (trace (world q'))
      = S (invocations (op_name (remoteRun message)) (trace (world q))).
Proof.
  intros Hbody Hvalid Hagent Hrun Hs.
  unfold handleChat. autorewrite with js. rewrite Hbody, Hvalid. cbn [negb].
  unfold try_catch. autorewrite with js.
  erewrite bind_ok by (apply getAgent_ready; exact Hagent).
  autorewrite with js. rewrite Hrun. cbn [from_option Datatypes.id].
  match goal with
  | |- context [bind (agentRun remoteRun message) _ ?q5] =>
      destruct (agentRun_closed remoteRun message q5 Hs) as (r & q6 & Hr & Hinv);
      unfold bind at 1; rewrite Hr
  end.
  destruct r as [reply | e].
  - autorewrite with js. eexists _, _. split; [reflexivity |].
    cbn. exact Hinv.
  - unfold chatFailed. destruct (instanceofAgentError e).
    + rewrite createErrorResponse_eq. eexists _, _. split; [reflexivity |].
      cbn. exact Hinv.
    + autorewrite with js. rewrite createErrorResponse_eq.
      eexists _, _. split; [reflexivity |]. cbn. exact Hinv.
Qed.

Lemma getClientIP_frame request p ip p1 :
  getClientIP request p = (Ok ip, p1) → p1 = p ∨ p1 = set_world tick p.
Proof.
  unfold getClientIP.
  repeat (destruct (truthy _); [intros [= _ <-]; now left |]).
  rewrite bind_Date_now. intros [= _ <-]. now right.
Qed.

Lemma checkLimit_eq ip p :
  checkLimit ip p
  = (Ok (checkLimitAt (now p) ip (rateLimiter p)).1,
     set_rateLimiter (λ _, (checkLimitAt (now p) ip (rateLimiter p)).2)
       (set_world tick p)).
Proof.
  unfold checkLimit. rewrite bind_Date_now, bind_gets.
  change (rateLimiter (set_world tick p)) with (rateLimiter p).
  destruct (checkLimitAt (now p) ip (rateLimiter p)) as [r rl']. reflexivity.
Qed.

(** C1, at the failing inputs: whenever the limiter refuses a well-formed
    request (the agent being built and the breaker closed), [POST] answers
    429, and yet the chat core has run for that request: the agent was
    fetched and the remote model was called once more. *)
Theorem refused_request_still_runs_the_chat
  constructAgent remoteRun awaitInFlight request p message a ip p1 :
  Request.body request = Json (Some message) true →
  validMessage (Some message) true = true →
  agent (manager p) = Some a → runIsFunction a = true →
  state (circuitBreaker p) = closed →
  getClientIP request p = (Ok ip, p1) →
  Limit.allowed (checkLimitAt (now p1) ip (rateLimiter p1)).1 = false →
  let r := (POST constructAgent remoteRun awaitInFlight request p).1 in
  let p' := (POST constructAgent remoteRun awaitInFlight request p).2 in
  (∃ reply, r = Ok reply ∧ Response.status reply = 429)
  ∧ invocations (op_name (remoteRun message)) (trace (world p'))
    = S (invocations (op_name (remoteRun message)) (trace (world p))).
Proof.
  intros Hbody Hvalid Hagent Hrun Hs Hip Hno r p'.
  assert (Hframe : manager p1 = manager p ∧ circuitBreaker p1 = circuitBreaker p
                   ∧ trace (world p1) = trace (world p)).
  { destruct (getClientIP_frame request p ip p1 Hip) as [-> | ->]; auto. }
  destruct Hframe as (Hm & Hb & Ht).
  set (p2 := set_rateLimiter (λ _, (checkLimitAt (now p1) ip (rateLimiter p1)).2)
               (set_world tick p1)).
  destruct (handleChat_calls_model constructAgent remoteRun awaitInFlight
              request p2 message a Hbody Hvalid) as (response & p3 & Hh & Hinv).
  { unfold p2. cbn. now rewrite Hm. }
  { exact Hrun. }
  { unfold p2. cbn. now rewrite Hb. }
  destruct (withRateLimit_refused request
              (handleChat constructAgent remoteRun awaitInFlight request)
              p ip p1 _ p2 response p3 Hip (checkLimit_eq ip p1) Hno Hh)
    as (reply & Hpost & Hstatus).
  unfold r, p', POST. rewrite Hpost. cbn [fst snd]. split.
  - exists reply. auto.
  - cbn. rewrite Hinv. unfold p2. cbn. now rewrite Ht.
Qed.

(** The second request of a client within a minute, under a quota of one. *)
Lemma refused_request_still_runs_the_chat_witness :
  let p := (POST libraryOk modelOk nothingInFlight hello
              (boot oneRequestPerMinute secondClock)).2 in
  (∃ reply, (POST libraryOk modelOk nothingInFlight hello p).1 = Ok reply
            ∧ Response.status reply = 429)
  ∧ invocations "agentInstance.run"
      (trace (world (POST libraryOk modelOk nothingInFlight hello p).2))
    = 2%nat.
Proof.
  intros p.
  apply (refused_request_still_runs_the_chat libraryOk modelOk nothingInFlight
           hello p "hello"
           {| tools := ["greet"%string]; runIsFunction := true;
              model := "gpt-4o-mini" |}
           "203.0.113.7" p); reflexivity.
Defined.

(** ** The identity of a client without an address *)

Lemma getClientIP_fallback request p :
  unaddressed request →
  getClientIP request p
  = (Ok (slice0 16 (base64 (userAgentOf request +:+ pretty (now p)))),
     set_world tick p).
Proof.
  intros (H1 & H2 & H3). unfold getClientIP. rewrite H1, H2, H3.
  reflexivity.
Qed.

(** Sixteen characters of base64 stand for twelve bytes. *)
Lemma slice_base64 s :
  slice0 16 (base64 s) = slice0 16 (base64 (slice0 12 s)).
Proof.
  do 12 (destruct s as [|? s]; [reflexivity |]).
  reflexivity.
Qed.

Lemma slice0_app n s t :
  slice0 n (s +:+ t)
  = if (n <=? String.length s)%nat then slice0 n s
    else s +:+ slice0 (n - String.length s) t.
Proof.
  revert n. induction s as [|c s IH]; intros n.
  - change ("" +:+ t) with t. destruct n; [now destruct t | reflexivity].
  - destruct n as [|n]; [reflexivity |].
    change (String c s +:+ t) with (String c (s +:+ t)).
    cbn [slice0 String.length Nat.leb Nat.sub]. rewrite IH.
    destruct (n <=? String.length s)%nat; reflexivity.
Qed.

Lemma slice0_base64_twelve s :
  (12 ≤ String.length s)%nat →
  slice0 16 (base64 (slice0 12 s)) = base64 (slice0 12 s).
Proof.
  intros H.
  do 12 (destruct s as [|? s]; [cbn in H; lia |]).
  reflexivity.
Qed.

Lemma sextet_indexOf n : (n < 64)%N → indexOf (sextet n) alphabet = n.
Proof.
  intros H. destruct n as [|q]; [reflexivity |].
  do 6 (try (destruct q as [q|q|]; try lia)); reflexivity.
Qed.

Lemma sextet_inj n m : (n < 64)%N → (m < 64)%N → sextet n = sextet m → n = m.
Proof.
  intros Hn Hm H. apply (f_equal (λ c, indexOf c alphabet)) in H.
  now rewrite !sextet_indexOf in H.
Qed.

Lemma N_of_ascii_inj a b : N_of_ascii a = N_of_ascii b → a = b.
Proof.
  intros H. apply (f_equal ascii_of_N) in H.
  now rewrite !ascii_N_embedding in H.
Qed.

(** Four characters give back the three bytes they stand for. *)
Lemma group_inj (a b c a' b' c' : ascii) :
  let x := N_of_ascii a in
  let y := N_of_ascii b in
  let z := N_of_ascii c in
  let x' := N_of_ascii a' in
  let y' := N_of_ascii b' in
  let z' := N_of_ascii c' in
  (sextet (x / 4) = sextet (x' / 4) →
   sextet (x mod 4 * 16 + y / 16) = sextet (x' mod 4 * 16 + y' / 16) →
   sextet (y mod 16 * 4 + z / 64) = sextet (y' mod 16 * 4 + z' / 64) →
   sextet (z mod 64) = sextet (z' mod 64) →
   a = a' ∧ b = b' ∧ c = c')%N.
Proof.
  intros x y z x' y' z' H1 H2 H3 H4.
  assert (Hx := N_ascii_bounded a). assert (Hy := N_ascii_bounded b).
  assert (Hz := N_ascii_bounded c). assert (Hx' := N_ascii_bounded a').
  assert (Hy' := N_ascii_bounded b'). assert (Hz' := N_ascii_bounded c').
  fold x in Hx. fold y in Hy. fold z in Hz.
  fold x' in Hx'. fold y' in Hy'. fold z' in Hz'.
  assert (Q1 := N.Div0.div_mod x 4). assert (Q1' := N.Div0.div_mod x' 4).
  assert (Q2 := N.Div0.div_mod y 16). assert (Q2' := N.Div0.div_mod y' 16).
  assert (Q3 := N.Div0.div_mod z 64). assert (Q3' := N.Div0.div_mod z' 64).
  assert (R1 := N.mod_lt x 4 ltac:(discriminate)). assert (R1' := N.mod_lt x' 4 ltac:(discriminate)).
  assert (R2 := N.mod_lt y 16 ltac:(discriminate)). assert (R2' := N.mod_lt y' 16 ltac:(discriminate)).
  assert (R3 := N.mod_lt z 64 ltac:(discriminate)). assert (R3' := N.mod_lt z' 64 ltac:(discriminate)).
  assert (E : x = x' ∧ y = y' ∧ z = z'); [| destruct E as (? & ? & ?);
    repeat split; now apply N_of_ascii_inj].
  clearbody x y z x' y' z'.
  set (q1 := (x / 4)%N) in *. set (r1 := (x mod 4)%N) in *.
  set (q2 := (y / 16)%N) in *. set (r2 := (y mod 16)%N) in *.
  set (q3 := (z / 64)%N) in *. set (r3 := (z mod 64)%N) in *.
  set (q1' := (x' / 4)%N) in *. set (r1' := (x' mod 4)%N) in *.
  set (q2' := (y' / 16)%N) in *. set (r2' := (y' mod 16)%N) in *.
  set (q3' := (z' / 64)%N) in *. set (r3' := (z' mod 64)%N) in *.
  clearbody q1 r1 q2 r2 q3 r3 q1' r1' q2' r2' q3' r3'.
  apply sextet_inj in H1; [| lia | lia].
  apply sextet_inj in H2; [| lia | lia].
  apply sextet_inj in H3; [| lia | lia].
  apply sextet_inj in H4; [| lia | lia].
  lia.
Qed.

Lemma base64_twelve_inj s t :
  String.length s = 12%nat → String.length t = 12%nat →
  base64 s = base64 t → s = t.
Proof.
  intros Hs Ht.
  do 12 (destruct s as [|? s]; [discriminate |]).
  destruct s; [| discriminate].
  do 12 (destruct t as [|? t]; [discriminate |]).
  destruct t; [| discriminate].
  cbn [base64]. intros H.
  injection H as G1 G2 G3 G4 G5 G6 G7 G8 G9 G10 G11 G12 G13 G14 G15 G16.
  destruct (group_inj _ _ _ _ _ _ G1 G2 G3 G4) as (-> & -> & ->).
  destruct (group_inj _ _ _ _ _ _ G5 G6 G7 G8) as (-> & -> & ->).
  destruct (group_inj _ _ _ _ _ _ G9 G10 G11 G12) as (-> & -> & ->).
  destruct (group_inj _ _ _ _ _ _ G13 G14 G15 G16) as (-> & -> & ->).
  reflexivity.
Qed.

Lemma slice0_length n s :
  (n ≤ String.length s)%nat → String.length (slice0 n s) = n.
Proof.
  revert s. induction n as [|n IH]; intros s H; [reflexivity |].
  destruct s as [|c s]; cbn in *; [lia |]. rewrite IH; lia.
Qed.

Lemma slice0_all n s : (String.length s ≤ n)%nat → slice0 n s = s.
Proof.
  revert s. induction n as [|n IH]; intros [|c s] H; cbn in *;
    try reflexivity; try lia.
  rewrite IH; [reflexivity | lia].
Qed.

Lemma length_append s t :
  String.length (s +:+ t) = (String.length s + String.length t)%nat.
Proof.
  induction s as [|c s IH]; [reflexivity |].
  change (String c s +:+ t) with (String c (s +:+ t)). cbn. now rewrite IH.
Qed.

(** C10, as stated, fails in its last part: without a user-agent header the
    identity is cut from ["unknown"] followed by the decimal timestamp, and
    only the first five digits of the timestamp are among the twelve bytes
    that count.  Two requests a second apart get the same identity. *)
Lemma short_user_agent_identity_repeats :
  let first := getClientIP anonymous justBooted in
  let second := getClientIP anonymous first.2 in
  unaddressed anonymous
  ∧ userAgentOf anonymous = "unknown"%string
  ∧ now justBooted = 1730000000000
  ∧ now first.2 = 1730000001000
  ∧ first.1 = Ok "dW5rbm93bjE3MzAw"%string
  ∧ second.1 = Ok "dW5rbm93bjE3MzAw"%string.
Proof. vm_compute. repeat split; reflexivity. Qed.

(** C10, amended: for a request that carries none of the three address
    headers, the identity is the first 16 base64 characters of the user
    agent followed by the decimal timestamp.  When the user agent has at
    least 12 bytes, it is the base64 of its first 12 bytes, the same at any
    time.  When it is shorter, by [k] bytes, the identity depends on the
    time through the first [k] characters of the timestamp only: two
    requests get the same identity when their timestamps agree on these
    characters, and, for timestamps of at least [k] characters, only
    then. *)
Theorem fallback_identity request p :
  unaddressed request →
  let ua := userAgentOf request in
  let k := (12 - String.length ua)%nat in
  identityAt request p = Ok (slice0 16 (base64 (ua +:+ pretty (now p))))
  ∧ ((12 ≤ String.length ua)%nat →
     identityAt request p = Ok (base64 (slice0 12 ua))
     ∧ ∀ p', identityAt request p' = identityAt request p)
  ∧ ((String.length ua < 12)%nat →
     identityAt request p
     = Ok (slice0 16 (base64 (ua +:+ slice0 k (pretty (now p)))))
     ∧ (∀ p', slice0 k (pretty (now p')) = slice0 k (pretty (now p)) →
              identityAt request p' = identityAt request p)
     ∧ (∀ p', (k ≤ String.length (pretty (now p)))%nat →
              (k ≤ String.length (pretty (now p')))%nat →
              identityAt request p' = identityAt request p →
              slice0 k (pretty (now p')) = slice0 k (pretty (now p)))).
Proof.
  intros Hun ua k.
  assert (Hid : ∀ q, identityAt request q
                     = Ok (slice0 16 (base64 (ua +:+ pretty (now q))))).
  { intros q. unfold identityAt. now rewrite getClientIP_fallback. }
  assert (Hcut : ∀ q, identityAt request q
                      = Ok (slice0 16 (base64 (slice0 12 (ua +:+ pretty (now q)))))).
  { intros q. now rewrite Hid, slice_base64. }
  split; [apply Hid |]. split.
  - intros Hlong.
    assert (Hq : ∀ q, identityAt request q = Ok (base64 (slice0 12 ua))).
    { intros q. rewrite Hcut, slice0_app.
      apply Nat.leb_le in Hlong. rewrite Hlong.
      apply Nat.leb_le in Hlong. now rewrite slice0_base64_twelve. }
    split; [apply Hq |]. intros p'. now rewrite !Hq.
  - intros Hshort.
    assert (Hq : ∀ q, identityAt request q
                      = Ok (slice0 16 (base64 (ua +:+ slice0 k (pretty (now q)))))).
    { intros q. rewrite Hcut, slice0_app.
      assert (Hgt : (12 <=? String.length ua)%nat = false)
        by (apply Nat.leb_gt; lia).
      now rewrite Hgt. }
    split; [apply Hq |]. split.
    + intros p' Hsame. now rewrite !Hq, Hsame.
    + intros p' Hk Hk' Heq. rewrite !Hq in Heq.
      assert (Hok : ∀ a b : string, @Ok string a = Ok b → a = b)
        by (intros a b [= ->]; reflexivity).
      apply Hok in Heq.
      assert (Hlen : ∀ q, (k ≤ String.length (pretty (now q)))%nat →
                String.length (ua +:+ slice0 k (pretty (now q))) = 12%nat).
      { intros q Hq'. rewrite length_append, slice0_length by exact Hq'.
        unfold k. lia. }
      assert (Hfull : ∀ q, (k ≤ String.length (pretty (now q)))%nat →
                slice0 16 (base64 (ua +:+ slice0 k (pretty (now q))))
                = base64 (ua +:+ slice0 k (pretty (now q)))).
      { intros q Hq'.
        rewrite <- (slice0_all 12 (ua +:+ slice0 k (pretty (now q))))
          by (rewrite Hlen by exact Hq'; lia).
        apply slice0_base64_twelve. rewrite Hlen by exact Hq'. lia. }
      rewrite !Hfull in Heq by assumption.
      apply base64_twelve_inj in Heq; try (apply Hlen; assumption).
      now apply (inj (String.app ua)) in Heq.
Qed.

(** A request without any header. *)
Lemma fallback_identity_witness :
  identityAt anonymous (bootedAt 1730000000000)
  = Ok (slice0 16 (base64 (userAgentOf anonymous
                           +:+ pretty (now (bootedAt 1730000000000))))).
Proof.
  refine (proj1 (fallback_identity anonymous (bootedAt 1730000000000) _)).
  vm_compute. repeat split; reflexivity.
Defined.

(** * Further properties *)

(** ** Retrying until success *)




(** X2.  With a negative retry budget the loop body never runs: the
    function is not called, nothing is logged or awaited, and what is
    thrown is [undefined], the value of the unassigned [lastError]. *)
Theorem withRetry_negative_budget {T} (fn : JS T) maxRetries baseDelay p :
  maxRetries < 0 →
  withRetry fn maxRetries baseDelay p = (Throw JsUndefined, p).
Proof.
  intros Hneg. unfold withRetry.
  replace (Z.to_nat (maxRetries + 1)) with O by lia. reflexivity.
Qed.

(** A budget of -1 over a host that would answer. *)
Lemma withRetry_negative_budget_witness :
  withRetry (invoke steadyHost) (-1) 1000 keyless = (Throw JsUndefined, keyless).
Proof. apply withRetry_negative_budget. lia. Defined.

(** ** Failures that are not consecutive *)

Lemma executeAll_app {T} (ops1 ops2 : list (Operation T)) p :
  (executeAll (ops1 ++ ops2) p).2 = (executeAll ops2 (executeAll ops1 p).2).2.
Proof.
  revert p. induction ops1 as [|op ops1 IH]; intros p; [reflexivity |].
  cbn [executeAll app]. destruct (execute (invoke op) p) as [r p1].
  specialize (IH p1).
  destruct (executeAll (ops1 ++ ops2) p1) as [rs p2].
  destruct (executeAll ops1 p1) as [rs1 p3]. cbn [snd] in *. exact IH.
Qed.

(** Failing calls that stay below the threshold are only counted. *)
Lemma executeAll_below {T} (ops : list (Operation T)) :
  ∀ p, Forall failing ops →
       state (circuitBreaker p) = closed →
       failureCount (circuitBreaker p) + Z.of_nat (length ops)
       < threshold (circuitBreaker p) →
       state (circuitBreaker (executeAll ops p).2) = closed
       ∧ failureCount (circuitBreaker (executeAll ops p).2)
         = failureCount (circuitBreaker p) + Z.of_nat (length ops)
       ∧ threshold (circuitBreaker (executeAll ops p).2)
         = threshold (circuitBreaker p).
Proof.
  induction ops as [|op rest IH]; intros p Hall Hs Hlen.
  - cbn. repeat split; auto; lia.
  - apply Forall_cons in Hall as [Hop Hrest]. destruct (Hop p) as [e He].
    cbn [executeAll]. rewrite (execute_failing_closed op p e Hs He).
    destruct (executeAll rest (failed (called op p))) as [rs p2] eqn:Hrun.
    cbn [snd]. replace p2 with (executeAll rest (failed (called op p))).2
      by now rewrite Hrun.
    assert (Hb := failed_called_breaker op p). cbv zeta in Hb.
    cbn [length] in Hlen.
    assert (Hle : (threshold (circuitBreaker p) <=? failureCount (circuitBreaker p) + 1)
                  = false) by (apply Z.leb_gt; lia).
    rewrite Hle in Hb.
    assert (Hs' : state (circuitBreaker (failed (called op p))) = closed)
      by (rewrite Hb; exact Hs).
    assert (Hc' : failureCount (circuitBreaker (failed (called op p)))
                  = failureCount (circuitBreaker p) + 1)
      by (rewrite Hb; reflexivity).
    assert (Ht' : threshold (circuitBreaker (failed (called op p)))
                  = threshold (circuitBreaker p))
      by (rewrite Hb; reflexivity).
    destruct (IH (failed (called op p)) Hrest Hs') as (H1 & H2 & H3).
    { rewrite Hc', Ht'. cbn [length] in Hlen. lia. }
    rewrite H1, H2, H3, Hc', Ht'. cbn [length]. repeat split; lia.
Qed.

Lemma execute_answering_closed {T} (op : Operation T) v p :
  state (circuitBreaker p) = closed → op_result op p = Ok v →
  execute (invoke op) p
  = (Ok v, set_circuitBreaker (set_failureCount 0) (called op p)).
Proof.
  intros Hs Hv. rewrite execute_invoke. unfold entered.
  rewrite canExecute_eq, Hs. cbn [fst snd].
  rewrite halfOpenGate_eq, Hs. cbn [snd]. rewrite Hv.
  unfold succeeded. cbn. now rewrite Hs.
Qed.

(** X3.  Only failures in a row open the breaker: on a closed breaker, one
    call that succeeds puts the count back to zero, so that fewer than
    [threshold] failures before it and fewer than [threshold] after it leave
    the breaker closed, with only the later ones on its count. *)
Theorem failures_must_be_consecutive {T} (before after : list (Operation T))
  (good : Operation T) v p :
  state (circuitBreaker p) = closed →
  failureCount (circuitBreaker p) = 0 →
  Forall failing before → Forall failing after → answering good v →
  Z.of_nat (length before) < threshold (circuitBreaker p) →
  Z.of_nat (length after) < threshold (circuitBreaker p) →
  let p' := (executeAll (before ++ good :: after) p).2 in
  state (circuitBreaker p') = closed
  ∧ failureCount (circuitBreaker p') = Z.of_nat (length after).
Proof.
  intros Hs Hc Hb Ha Hg Hlb Hla p'. unfold p'.
  rewrite executeAll_app.
  destruct (executeAll_below before p Hb Hs ltac:(lia)) as (S1 & C1 & T1).
  set (p1 := (executeAll before p).2) in *.
  cbn [executeAll]. rewrite (execute_answering_closed good v p1 S1 (Hg p1)).
  set (p2 := set_circuitBreaker (set_failureCount 0) (called good p1)).
  destruct (executeAll after p2) as [rs p3] eqn:Hrun. cbn [snd].
  replace p3 with (executeAll after p2).2 by now rewrite Hrun.
  destruct (executeAll_below after p2 Ha) as (S2 & C2 & T2).
  - exact S1.
  - unfold p2. cbn. rewrite T1. lia.
  - split; [exact S2 |]. rewrite C2. unfold p2. cbn. lia.
Qed.

(** Four failures, a success, four failures, under the default threshold
    of five. *)
Lemma failures_must_be_consecutive_witness :
  let four := [unreachableHost; unreachableHost; unreachableHost; unreachableHost] in
  let p' := (executeAll (four ++ steadyHost :: four)
               (boot (defaultConfig "sk-test") minuteClock)).2 in
  state (circuitBreaker p') = closed ∧ failureCount (circuitBreaker p') = 4.
Proof.
  intros four.
  apply (failures_must_be_consecutive four four steadyHost tt
           (boot (defaultConfig "sk-test") minuteClock));
    try reflexivity;
    try (repeat constructor; intros q; exists (JsError "connect ECONNREFUSED");
         reflexivity).
Defined.

(** ** The agent manager *)

Lemma execute_eq {T} (fn : JS T) q :
  execute fn q =
  match (canExecute q).1 with
  | Ok true =>
      match fn (entered q) with
      | (Ok r, q') => (Ok r, succeeded q')
      | (Throw e, q') => (Throw e, failed q')
      end
  | _ => (Throw (CircuitBreakerError "Circuit breaker is open"), (canExecute q).2)
  end.
Proof.
  unfold execute, entered, bind at 1.
  destruct (canExecute q) as [[[]|e] q1] eqn:Hc; cbn [fst snd negb].
  - unfold try_catch, bind.
    destruct (halfOpenGate q1) as [[[]|e] q2] eqn:Hg; cbn [snd].
    + destruct (fn q2) as [[r | e] q3];
        rewrite ?recordSuccess_eq, ?recordFailure_eq; reflexivity.
    + rewrite halfOpenGate_eq in Hg.
      destruct (state _); try destruct (_ <=? _); discriminate.
  - reflexivity.
  - rewrite canExecute_eq in Hc. destruct (state _); discriminate.
Qed.

(** The breaker leaves the rest of the process alone. *)
Lemma breaker_frames q :
  (env (canExecute q).2 = env q ∧ manager (canExecute q).2 = manager q
   ∧ rateLimiter (canExecute q).2 = rateLimiter q)
  ∧ (env (entered q) = env q ∧ manager (entered q) = manager q
     ∧ rateLimiter (entered q) = rateLimiter q)
  ∧ (env (succeeded q) = env q ∧ manager (succeeded q) = manager q
     ∧ rateLimiter (succeeded q) = rateLimiter q)
  ∧ (env (failed q) = env q ∧ manager (failed q) = manager q
     ∧ rateLimiter (failed q) = rateLimiter q).
Proof.
  unfold entered. rewrite canExecute_eq.
  repeat split;
    try (destruct (state (circuitBreaker q)) eqn:Hs; cbn [fst snd];
         rewrite ?halfOpenGate_eq; cbn [circuitBreaker set_world];
         rewrite ?Hs; try destruct (_ <=? _); reflexivity);
    try (unfold succeeded; destruct (state (circuitBreaker q)); reflexivity);
    try (unfold failed; cbv zeta; destruct (_ <=? _); reflexivity).
Qed.

Lemma bind_invoke_ok {T B} (op : Operation T) (k : T → JS B) v q :
  op_result op q = Ok v → bind (invoke op) k q = k v (called op q).
Proof. intros H. unfold bind, invoke. now rewrite H. Qed.

Lemma bind_invoke_throw {T B} (op : Operation T) (k : T → JS B) e q :
  op_result op q = Throw e → bind (invoke op) k q = (Throw e, called op q).
Proof. intros H. unfold bind, invoke. now rewrite H. Qed.

Lemma attemptOutcome_refl e q : attemptOutcome (Throw e) q q.
Proof. repeat split. Qed.

Lemma attemptOutcome_trans e r q1 q2 q3 :
  attemptOutcome (Throw e) q1 q2 → attemptOutcome r q2 q3 →
  attemptOutcome r q1 q3.
Proof.
  intros (A1 & A2 & A3 & A4 & A5 & A6) (B1 & B2 & B3 & B4 & B5 & B6).
  repeat split; try congruence.
  destruct r; [destruct B6; split |]; congruence.
Qed.

(** The body of the initialization stores the handle it returns, and
    nothing when it throws. *)
Lemma initializeBody_outcome constructAgent q :
  attemptOutcome (initializeBody constructAgent q).1 q
    (initializeBody constructAgent q).2.
Proof.
  unfold initializeBody. autorewrite with js. unfold try_catch.
  autorewrite with js. cbn [env set_world].
  destruct (String.eqb (OPENAI_API_KEY (env q)) "").
  - unfold throw. autorewrite with js. repeat split.
  - match goal with |- context [bind (invoke constructAgent) _ ?q1] =>
      destruct (op_result constructAgent q1) as [[] | e] eqn:Hop;
      [rewrite (bind_invoke_ok _ _ tt q1 Hop)
      | rewrite (bind_invoke_throw _ _ e q1 Hop)] end.
    + autorewrite with js. unfold bind at 1. cbn [modify].
      autorewrite with js. repeat split.
    + autorewrite with js. repeat split.
Qed.

Lemma execute_outcome (fn : JS AgentInstance) q :
  (∀ q0, attemptOutcome (fn q0).1 q0 (fn q0).2) →
  attemptOutcome (execute fn q).1 q (execute fn q).2.
Proof.
  intros Hfn. rewrite execute_eq.
  destruct (breaker_frames q) as ((C1 & C2 & C3) & (E1 & E2 & E3) & _).
  destruct (canExecute q).1 as [[] | e] eqn:Hc; cbn [fst snd];
    try (unfold attemptOutcome; rewrite C1, C2, C3; repeat split).
  specialize (Hfn (entered q)).
  destruct (fn (entered q)) as [[a | e] q'] eqn:Hrun; cbn [fst snd] in *.
  - destruct (breaker_frames q') as (_ & _ & (S1 & S2 & S3) & _).
    unfold attemptOutcome in *. rewrite S1, S2, S3, <- E1, <- E2, <- E3.
    exact Hfn.
  - destruct (breaker_frames q') as (_ & _ & _ & (F1 & F2 & F3)).
    unfold attemptOutcome in *. rewrite F1, F2, F3, <- E1, <- E2, <- E3.
    exact Hfn.
Qed.

Lemma retryLoop_outcome (fn : JS AgentInstance) maxRetries baseDelay :
  (∀ q0, attemptOutcome (fn q0).1 q0 (fn q0).2) →
  ∀ iterations attempt lastError q,
    attemptOutcome
      (retryLoop fn maxRetries baseDelay iterations attempt lastError q).1 q
      (retryLoop fn maxRetries baseDelay iterations attempt lastError q).2.
Proof.
  intros Hfn. induction iterations as [|n IH]; intros attempt lastError q.
  - cbn. apply attemptOutcome_refl.
  - cbn [retryLoop]. specialize (Hfn q).
    destruct (fn q) as [[a | e] q1]; cbn [fst snd] in *; [exact Hfn |].
    apply (attemptOutcome_trans e _ q q1); [exact Hfn |].
    destruct (attempt <? maxRetries).
    + cbv zeta. rewrite bind_bind, bind_logger. unfold sleep, emit.
      unfold bind at 1. cbn [modify].
      match goal with |- context [retryLoop _ _ _ _ _ _ ?q2] =>
        apply (attemptOutcome_trans e _ q1 q2); [repeat split | apply IH] end.
    + rewrite bind_ret. apply IH.
Qed.

Lemma initializeAgent_eq constructAgent awaitInFlight p :
  agent (manager p) = None →
  isInitializing (manager p) = false →
  initializeAgent constructAgent awaitInFlight p =
  let p0 := set_manager (set_initializing true true) p in
  match withRetry (execute (initializeBody constructAgent))
          (MAX_RETRIES (env p)) (RETRY_DELAY_MS (env p)) p0 with
  | (Ok a, q) => (Ok a, set_manager (set_initializing false false) q)
  | (Throw e, q) => (Throw e, set_manager (set_initializing false false) q)
  end.
Proof.
  intros Hagent Hinit. unfold initializeAgent.
  rewrite bind_gets, Hagent, Hinit. cbn [andb].
  unfold bind at 1. cbn [modify]. rewrite !bind_gets. unfold try_catch.
  cbn [env set_manager]. cbv zeta. unfold bind at 1.
  destruct (withRetry _ _ _ _) as [[a | e] q]; reflexivity.
Qed.

Lemma initializeAgent_outcome constructAgent awaitInFlight p :
  agent (manager p) = None →
  isInitializing (manager p) = false →
  ∃ r q,
    initializeAgent constructAgent awaitInFlight p
    = (r, set_manager (set_initializing false false) q)
    ∧ attemptOutcome r (set_manager (set_initializing true true) p) q.
Proof.
  intros Hagent Hinit.
  rewrite (initializeAgent_eq _ _ _ Hagent Hinit). cbv zeta. unfold withRetry.
  set (p0 := set_manager (set_initializing true true) p).
  assert (Hout := retryLoop_outcome (execute (initializeBody constructAgent))
            (MAX_RETRIES (env p)) (RETRY_DELAY_MS (env p))
            (λ q0, execute_outcome _ q0 (initializeBody_outcome constructAgent))
            (Z.to_nat (MAX_RETRIES (env p) + 1)) 0 None p0).
  destruct (retryLoop _ _ _ _ _ _ p0) as [[a | e] q];
    eexists _, q; (split; [reflexivity | exact Hout]).
Qed.

(** X4.  Success is cached and failure is not.  When no agent is built
    and no initialization is under way, [initializeAgent] ends with the
    in-flight state cleared; it stores the handle exactly when it returns
    one, which is then the agent of the configured model with its one tool,
    and a [getAgent] after that returns the same handle without
    touching the process; when it throws, no handle is stored and a later
    call starts from scratch.  The configuration, the limiter and the time
    of the last health check are left as they were. *)
Theorem initializeAgent_caches_success_only constructAgent awaitInFlight p :
  agent (manager p) = None →
  isInitializing (manager p) = false →
  let run := initializeAgent constructAgent awaitInFlight p in
  isInitializing (manager run.2) = false
  ∧ initializationPromise (manager run.2) = false
  ∧ env run.2 = env p
  ∧ rateLimiter run.2 = rateLimiter p
  ∧ lastHealthCheck (manager run.2) = lastHealthCheck (manager p)
  ∧ match run.1 with
    | Ok a =>
        a = greetAgent (OPENAI_MODEL (env p))
        ∧ agent (manager run.2) = Some a
        ∧ getAgent constructAgent awaitInFlight run.2 = (Ok a, run.2)
    | Throw _ => agent (manager run.2) = None
    end.
Proof.
  intros Hagent Hinit. cbv zeta.
  destruct (initializeAgent_outcome constructAgent awaitInFlight p Hagent Hinit)
    as (r & q & -> & O1 & O2 & _ & _ & O5 & O6).
  cbn [fst snd manager set_manager set_initializing isInitializing
       initializationPromise lastHealthCheck agent env rateLimiter] in *.
  split; [reflexivity |]. split; [reflexivity |].
  split; [exact O1 |]. split; [exact O2 |]. split; [exact O5 |].
  destruct r as [a | e].
  - destruct O6 as [Hstored Hshape].
    split; [exact Hshape |]. split; [exact Hstored |].
    apply getAgent_ready. exact Hstored.
  - rewrite O6. exact Hagent.
Qed.

(** The process just booted, with the library at hand. *)
Lemma initializeAgent_caches_success_only_witness :
  let run := initializeAgent libraryOk nothingInFlight justBooted in
  isInitializing (manager run.2) = false
  ∧ initializationPromise (manager run.2) = false
  ∧ env run.2 = env justBooted
  ∧ rateLimiter run.2 = rateLimiter justBooted
  ∧ lastHealthCheck (manager run.2) = lastHealthCheck (manager justBooted)
  ∧ match run.1 with
    | Ok a =>
        a = greetAgent "gpt-4o-mini"
        ∧ agent (manager run.2) = Some a
        ∧ getAgent libraryOk nothingInFlight run.2 = (Ok a, run.2)
    | Throw _ => agent (manager run.2) = None
    end.
Proof.
  apply (initializeAgent_caches_success_only libraryOk nothingInFlight justBooted);
    reflexivity.
Defined.

Lemma initializeBody_ok constructAgent q :
  OPENAI_API_KEY (env q) ≠ ""%string →
  answering constructAgent tt →
  ∃ q',
    initializeBody constructAgent q = (Ok (greetAgent (OPENAI_MODEL (env q))), q')
    ∧ circuitBreaker q' = circuitBreaker q
    ∧ invocations (op_name constructAgent) (trace (world q'))
      = S (invocations (op_name constructAgent) (trace (world q)))
    ∧ sleeps (trace (world q')) = sleeps (trace (world q))
    ∧ ticks (world q') = S (S (ticks (world q))).
Proof.
  intros Hkey Hop. apply String.eqb_neq in Hkey.
  unfold initializeBody. autorewrite with js. unfold try_catch.
  autorewrite with js. cbn [env set_world]. rewrite Hkey.
  rewrite (bind_invoke_ok _ _ tt) by apply Hop.
  autorewrite with js. unfold bind at 1. cbn [modify].
  autorewrite with js. eexists. split; [reflexivity |].
  cbn. rewrite String.eqb_refl. repeat split.
Qed.

(** X5.  When the key is configured, the breaker is closed and the
    library builds the agent, [initializeAgent] succeeds at the first
    attempt: the constructor is called once, nothing is waited for, the
    handle carries the one tool [greet] and the configured model, and
    the breaker ends closed with its failure count back at 0, whatever the
    count was before. *)
Theorem initializeAgent_first_attempt constructAgent awaitInFlight p :
  agent (manager p) = None →
  isInitializing (manager p) = false →
  OPENAI_API_KEY (env p) ≠ ""%string →
  state (circuitBreaker p) = closed →
  0 ≤ MAX_RETRIES (env p) →
  answering constructAgent tt →
  let run := initializeAgent constructAgent awaitInFlight p in
  run.1 = Ok (greetAgent (OPENAI_MODEL (env p)))
  ∧ invocations (op_name constructAgent) (trace (world run.2))
    = S (invocations (op_name constructAgent) (trace (world p)))
  ∧ sleeps (trace (world run.2)) = sleeps (trace (world p))
  ∧ state (circuitBreaker run.2) = closed
  ∧ failureCount (circuitBreaker run.2) = 0.
Proof.
  intros Hagent Hinit Hkey Hclosed Hmax Hop run. subst run.
  rewrite (initializeAgent_eq _ _ _ Hagent Hinit). cbv zeta. unfold withRetry.
  replace (Z.to_nat (MAX_RETRIES (env p) + 1))
    with (S (Z.to_nat (MAX_RETRIES (env p)))) by lia.
  cbn [retryLoop].
  set (p0 := set_manager (set_initializing true true) p).
  rewrite (execute_closed _ p0) by exact Hclosed.
  destruct (initializeBody_ok constructAgent p0 Hkey Hop)
    as (q' & -> & Hb & Hi & Hs & _).
  cbn [fst snd]. unfold succeeded. rewrite Hb.
  change (circuitBreaker p0) with (circuitBreaker p). rewrite Hclosed.
  cbn [set_manager set_circuitBreaker world circuitBreaker set_failureCount
       state failureCount].
  repeat split; try assumption.
  rewrite Hb. exact Hclosed.
Qed.

(** The process just booted: the default configuration with a key. *)
Lemma initializeAgent_first_attempt_witness :
  let run := initializeAgent libraryOk nothingInFlight justBooted in
  run.1 = Ok (greetAgent "gpt-4o-mini")
  ∧ invocations "agent" (trace (world run.2)) = 1%nat
  ∧ sleeps (trace (world run.2)) = []
  ∧ state (circuitBreaker run.2) = closed
  ∧ failureCount (circuitBreaker run.2) = 0.
Proof.
  apply (initializeAgent_first_attempt libraryOk nothingInFlight justBooted).
  - reflexivity.
  - reflexivity.
  - discriminate.
  - reflexivity.
  - discriminate.
  - intros q. reflexivity.
Defined.

Lemma initializeBody_run constructAgent q :
  OPENAI_API_KEY (env q) ≠ ""%string →
  answering constructAgent tt →
  initializeBody constructAgent q
  = (Ok (greetAgent (OPENAI_MODEL (env q))),
     set_world (push (EvLog LInfo "Agent initialized successfully"))
       (set_world tick
          (set_manager (set_agent (Some (greetAgent (OPENAI_MODEL (env q)))))
             (called constructAgent
                (set_world tick
                   (set_world (push (EvLog LInfo "Initializing agent...")) q)))))).
Proof.
  intros Hkey Hop. apply String.eqb_neq in Hkey.
  unfold initializeBody. autorewrite with js. unfold try_catch.
  autorewrite with js. cbn [env set_world]. rewrite Hkey.
  rewrite (bind_invoke_ok _ _ tt) by apply Hop.
  autorewrite with js. unfold bind at 1. cbn [modify].
  autorewrite with js. reflexivity.
Qed.

Lemma initializeAgent_builds_frame constructAgent awaitInFlight p :
  agent (manager p) = None →
  isInitializing (manager p) = false →
  OPENAI_API_KEY (env p) ≠ ""%string →
  state (circuitBreaker p) = closed →
  0 ≤ MAX_RETRIES (env p) →
  answering constructAgent tt →
  ∃ q',
    initializeAgent constructAgent awaitInFlight p
    = (Ok (greetAgent (OPENAI_MODEL (env p))), q')
    ∧ agent (manager q') = Some (greetAgent (OPENAI_MODEL (env p)))
    ∧ isInitializing (manager q') = false
    ∧ state (circuitBreaker q') = closed
    ∧ failureCount (circuitBreaker q') = 0
    ∧ sleeps (trace (world q')) = sleeps (trace (world p))
    ∧ (∀ name, invocations name (trace (world q'))
               = invocations name (EvInvoke (op_name constructAgent)
                                     :: trace (world p))).
Proof.
  intros Hagent Hinit Hkey Hclosed Hmax Hop.
  rewrite (initializeAgent_eq _ _ _ Hagent Hinit). cbv zeta. unfold withRetry.
  replace (Z.to_nat (MAX_RETRIES (env p) + 1))
    with (S (Z.to_nat (MAX_RETRIES (env p)))) by lia.
  cbn [retryLoop].
  rewrite (execute_closed _ (set_manager (set_initializing true true) p))
    by exact Hclosed.
  rewrite initializeBody_run by first [exact Hkey | exact Hop].
  eexists. split; [reflexivity |].
  unfold succeeded. cbn [circuitBreaker set_world set_manager called].
  rewrite Hclosed. repeat split. exact Hclosed.
Qed.

(** X6.  [shutdown] forgets the agent and nothing else: after it
    [isInitialized] answers false, while the breaker, the limiter and the
    time of the last health check are as before.  With the key configured,
    the breaker closed and the library at hand, the next [getAgent] builds
    the agent anew, with one more call of the constructor, and
    [isInitialized] answers true again. *)
Theorem shutdown_then_getAgent_rebuilds constructAgent awaitInFlight p :
  OPENAI_API_KEY (env p) ≠ ""%string →
  state (circuitBreaker p) = closed →
  0 ≤ MAX_RETRIES (env p) →
  answering constructAgent tt →
  let down := (shutdown p).2 in
  let again := getAgent constructAgent awaitInFlight down in
  (isInitialized down).1 = Ok false
  ∧ circuitBreaker down = circuitBreaker p
  ∧ rateLimiter down = rateLimiter p
  ∧ lastHealthCheck (manager down) = lastHealthCheck (manager p)
  ∧ again.1 = Ok (greetAgent (OPENAI_MODEL (env p)))
  ∧ invocations (op_name constructAgent) (trace (world again.2))
    = S (invocations (op_name constructAgent) (trace (world p)))
  ∧ (isInitialized again.2).1 = Ok true.
Proof.
  intros Hkey Hclosed Hmax Hop down again.
  assert (Hdown : down =
    set_world (push (EvLog LInfo "Agent manager shutdown complete"))
      (set_manager (λ m, set_initializing false false (set_agent None m))
         (set_world (push (EvLog LInfo "Shutting down agent manager...")) p)))
    by reflexivity.
  assert (Hagain : again = initializeAgent constructAgent awaitInFlight down).
  { unfold again, getAgent. rewrite bind_gets. rewrite Hdown. reflexivity. }
  assert (Hnone : agent (manager down) = None) by (rewrite Hdown; reflexivity).
  assert (Hidle : isInitializing (manager down) = false)
    by (rewrite Hdown; reflexivity).
  destruct (initializeAgent_builds_frame constructAgent awaitInFlight down
              Hnone Hidle Hkey Hclosed Hmax Hop)
    as (q' & Hq' & Hstored & _ & _ & _ & _ & Hinv).
  rewrite Hagain, Hq'. cbn [fst snd].
  repeat split; try (rewrite Hdown; reflexivity).
  - rewrite Hinv, Hdown. cbn. now rewrite String.eqb_refl.
  - unfold isInitialized. rewrite bind_gets, Hstored. reflexivity.
Qed.

(** A process whose agent is built: stopped, then asked for its agent. *)
Lemma shutdown_then_getAgent_rebuilds_witness :
  let down := (shutdown serving).2 in
  let again := getAgent libraryOk nothingInFlight down in
  (isInitialized down).1 = Ok false
  ∧ again.1 = Ok (greetAgent "gpt-4o-mini")
  ∧ invocations "agent" (trace (world again.2)) = 2%nat
  ∧ (isInitialized again.2).1 = Ok true.
Proof.
  assert (Hkey : OPENAI_API_KEY (env serving) ≠ ""%string) by discriminate.
  assert (Hclosed : state (circuitBreaker serving) = closed) by reflexivity.
  assert (Hmax : 0 ≤ MAX_RETRIES (env serving)) by discriminate.
  assert (Hop : answering libraryOk tt) by (intros q; reflexivity).
  destruct (shutdown_then_getAgent_rebuilds libraryOk nothingInFlight serving
              Hkey Hclosed Hmax Hop) as (H1 & _ & _ & _ & H2 & H3 & H4).
  repeat split; assumption.
Defined.

(** *** An open breaker *)

Lemma execute_refused {T} (fn : JS T) q :
  state (circuitBreaker q) = open →
  now q < nextAttemptTime (circuitBreaker q) →
  execute fn q
  = (Throw (CircuitBreakerError "Circuit breaker is open"), set_world tick q).
Proof.
  intros Hs Hlt. rewrite execute_eq, canExecute_eq, Hs. cbn [fst snd].
  assert (Hle : (nextAttemptTime (circuitBreaker q) <=? now q) = false)
    by (apply Z.leb_gt; exact Hlt).
  rewrite Hle.
  reflexivity.
Qed.

(** While the breaker stays shut, the loop is refused at every attempt: it
    warns and waits as often as it may, and calls nothing. *)
Lemma retryLoop_refused {T} (fn : JS T) maxRetries baseDelay :
  ∀ n attempt lastError p,
    heldOpen n p →
    attempt + Z.of_nat n = maxRetries →
    ∃ q,
      retryLoop (execute fn) maxRetries baseDelay (S n) attempt lastError p
      = (Throw (CircuitBreakerError "Circuit breaker is open"), q)
      ∧ circuitBreaker q = circuitBreaker p
      ∧ manager q = manager p
      ∧ env q = env p
      ∧ rateLimiter q = rateLimiter p
      ∧ (∀ name, invocations name (trace (world q))
                 = invocations name (trace (world p)))
      ∧ sleeps (trace (world q))
        = sleeps (trace (world p)) ++ backoff baseDelay attempt n.
Proof.
  induction n as [|n IH]; intros attempt lastError p [Hopen Hshut] Hn.
  - cbn [retryLoop].
    rewrite execute_refused;
      [| exact Hopen
       | specialize (Hshut O ltac:(lia)); unfold reading in Hshut;
         rewrite Nat.add_0_r in Hshut; exact Hshut].
    assert (Hlt : (attempt <? maxRetries) = false) by (apply Z.ltb_ge; lia).
    rewrite Hlt. eexists. split; [reflexivity |].
    cbn [backoff]. rewrite app_nil_r. repeat split.
  - change (retryLoop (execute fn) maxRetries baseDelay (S (S n)) attempt lastError p)
      with (match execute fn p with
            | (Ok result, p') => (Ok result, p')
            | (Throw error, p') =>
                ((if attempt <? maxRetries then
                    let delay := baseDelay * 2 ^ attempt in
                    logger LWarn (retryMessage attempt delay) ;;;
                    sleep delay
                  else ret tt) ;;;
                 retryLoop (execute fn) maxRetries baseDelay (S n)
                   (attempt + 1) (Some error)) p'
            end).
    rewrite execute_refused;
      [| exact Hopen
       | specialize (Hshut O ltac:(lia)); unfold reading in Hshut;
         rewrite Nat.add_0_r in Hshut; exact Hshut].
    assert (Hlt : (attempt <? maxRetries) = true) by (apply Z.ltb_lt; lia).
    rewrite Hlt. cbv zeta.
    set (p1 := set_world (push (EvSleep (baseDelay * 2 ^ attempt)))
                 (set_world (push (EvLog LWarn
                    (retryMessage attempt (baseDelay * 2 ^ attempt))))
                    (set_world tick p))).
    destruct (IH (attempt + 1)
                (Some (CircuitBreakerError "Circuit breaker is open")) p1)
      as (q & Hrun & Hb & Hm & He & Hr & Hi & Hsl); [| lia |].
    { split; [exact Hopen |]. intros i Hi.
      specialize (Hshut (S i) ltac:(lia)). unfold reading in *.
      cbn [p1 world set_world push tick clock ticks circuitBreaker].
      replace (S (ticks (world p)) + i)%nat with (ticks (world p) + S i)%nat by lia.
      exact Hshut. }
    exists q. split; [exact Hrun |].
    repeat split; try assumption.
    rewrite Hsl. cbn [backoff]. unfold p1. cbn. rewrite <- app_assoc. reflexivity.
Qed.

(** X7.  An open breaker blocks the construction of the agent as well.
    When no agent is built and the breaker stays shut, [getAgent] is
    refused at each of its [MAX_RETRIES + 1] attempts: it waits through
    every backoff delay, calls nothing at all, throws the breaker's error,
    and leaves no handle, no initialization in flight and the breaker as
    it was. *)
Theorem open_breaker_blocks_initialization constructAgent awaitInFlight p :
  agent (manager p) = None →
  isInitializing (manager p) = false →
  0 ≤ MAX_RETRIES (env p) →
  heldOpen (Z.to_nat (MAX_RETRIES (env p))) p →
  let run := getAgent constructAgent awaitInFlight p in
  run.1 = Throw (CircuitBreakerError "Circuit breaker is open")
  ∧ (∀ name, invocations name (trace (world run.2))
             = invocations name (trace (world p)))
  ∧ sleeps (trace (world run.2))
    = sleeps (trace (world p))
      ++ backoff (RETRY_DELAY_MS (env p)) 0 (Z.to_nat (MAX_RETRIES (env p)))
  ∧ circuitBreaker run.2 = circuitBreaker p
  ∧ agent (manager run.2) = None
  ∧ isInitializing (manager run.2) = false.
Proof.
  intros Hagent Hinit Hmax Hheld run.
  assert (Hrun : run = initializeAgent constructAgent awaitInFlight p).
  { unfold run, getAgent. rewrite bind_gets, Hagent, Hinit. reflexivity. }
  rewrite Hrun, (initializeAgent_eq _ _ _ Hagent Hinit). cbv zeta.
  unfold withRetry.
  replace (Z.to_nat (MAX_RETRIES (env p) + 1))
    with (S (Z.to_nat (MAX_RETRIES (env p)))) by lia.
  destruct (retryLoop_refused (initializeBody constructAgent)
              (MAX_RETRIES (env p)) (RETRY_DELAY_MS (env p))
              (Z.to_nat (MAX_RETRIES (env p))) 0 None
              (set_manager (set_initializing true true) p))
    as (q & -> & Hb & Hm & He & Hr & Hi & Hsl); [exact Hheld | lia |].
  cbn [fst snd set_manager world circuitBreaker manager agent isInitializing
       set_initializing].
  repeat split; try assumption.
  rewrite Hm. exact Hagent.
Qed.

(** The process just tripped: the four attempts of the default
    configuration, a second apart, all fall within the minute. *)
Lemma open_breaker_blocks_initialization_witness :
  let run := getAgent libraryOk nothingInFlight justTripped in
  run.1 = Throw (CircuitBreakerError "Circuit breaker is open")
  ∧ (∀ name, invocations name (trace (world run.2))
             = invocations name (trace (world justTripped)))
  ∧ sleeps (trace (world run.2)) = [1000; 2000; 4000]
  ∧ circuitBreaker run.2 = circuitBreaker justTripped
  ∧ agent (manager run.2) = None
  ∧ isInitializing (manager run.2) = false.
Proof.
  apply (open_breaker_blocks_initialization libraryOk nothingInFlight justTripped).
  - reflexivity.
  - reflexivity.
  - discriminate.
  - split; [reflexivity |].
    intros i Hi. change (i ≤ 3)%nat in Hi.
    destruct i as [|[|[|[|i]]]]; [reflexivity .. | lia].
Defined.

(** *** Health *)

(** X8.  [getHealth] never throws and reads the clock once.  It reports
    [healthy] only when a handle is stored, and [initializing] only when
    none is and the last check is at least 30 seconds old, whether or not
    an initialization is under way; an error text comes with
    [initializing] and with nothing else.  The time it reports is the time
    of the last check as stored when it returns.  It changes nothing else:
    the handle, the in-flight state, the breaker, the limiter and the log
    are as before. *)
Theorem getHealth_report p :
  let run := getHealth p in
  ∃ h,
    run.1 = Ok h
    ∧ (status h = healthy → agent (manager p) ≠ None)
    ∧ (status h = initializing ↔
         agent (manager p) = None
         ∧ 30000 ≤ now p - lastHealthCheck (manager p))
    ∧ (error h ≠ None ↔ status h = initializing)
    ∧ checkedAt h = lastHealthCheck (manager run.2)
    ∧ (∀ flag promise,
         (getHealth (set_manager (set_initializing flag promise) p)).1 = run.1)
    ∧ agent (manager run.2) = agent (manager p)
    ∧ isInitializing (manager run.2) = isInitializing (manager p)
    ∧ circuitBreaker run.2 = circuitBreaker p
    ∧ rateLimiter run.2 = rateLimiter p
    ∧ trace (world run.2) = trace (world p)
    ∧ ticks (world run.2) = S (ticks (world p)).
Proof.
  cbv zeta.
  assert (Hflags : ∀ flag promise,
            (getHealth (set_manager (set_initializing flag promise) p)).1
            = (getHealth p).1).
  { intros flag promise. rewrite !getHealth_eq. cbv zeta.
    change (now (set_manager (set_initializing flag promise) p)) with (now p).
    cbn [manager set_manager set_initializing lastHealthCheck agent].
    destruct (_ <? _); reflexivity. }
  revert Hflags. rewrite getHealth_eq. cbv zeta. intros Hflags.
  destruct (now p - lastHealthCheck (manager p) <? 30000) eqn:Hfresh;
    [apply Z.ltb_lt in Hfresh | apply Z.ltb_ge in Hfresh];
    destruct (agent (manager p)) as [a |] eqn:Hagent;
    try destruct ((0 <? Z.of_nat (length (tools a))) && runIsFunction a);
    eexists; (split; [reflexivity |]);
    cbn [fst snd status error checkedAt manager set_manager set_world
         set_lastHealthCheck agent isInitializing lastHealthCheck
         circuitBreaker rateLimiter world trace ticks tick];
    repeat split; try exact Hflags;
    try (intros; discriminate || lia || congruence || tauto);
    try (intros [_ ?]; lia); try (intros [? _]; discriminate);
    try (intros H; exfalso; apply H; reflexivity).
Qed.

(** X9.  The agent this manager builds is always reported healthy.  When
    [getAgent] returns a handle it has just built, a [getHealth] after it
    answers [healthy] without an error text, whatever the clock reads:
    within 30 seconds of the last check because a handle is stored, and
    otherwise because that handle has its tool and its [run]. *)
Theorem built_agent_reports_healthy constructAgent awaitInFlight p a :
  agent (manager p) = None →
  isInitializing (manager p) = false →
  (getAgent constructAgent awaitInFlight p).1 = Ok a →
  ∃ h,
    (getHealth (getAgent constructAgent awaitInFlight p).2).1 = Ok h
    ∧ status h = healthy
    ∧ error h = None.
Proof.
  intros Hagent Hinit Hok.
  assert (Hrun : getAgent constructAgent awaitInFlight p
                 = initializeAgent constructAgent awaitInFlight p).
  { unfold getAgent. rewrite bind_gets, Hagent, Hinit. reflexivity. }
  rewrite Hrun in *.
  destruct (initializeAgent_outcome constructAgent awaitInFlight p Hagent Hinit)
    as (r & q & Heq & _ & _ & _ & _ & _ & Hout).
  rewrite Heq in *. cbn [fst snd] in *. subst r. destruct Hout as [Hstored Ha].
  rewrite getHealth_eq. cbv zeta. cbn [manager set_manager set_initializing agent].
  rewrite Hstored, Ha.
  destruct (_ <? _); eexists; (split; [reflexivity |]); split; reflexivity.
Qed.

(** The first request of the process just booted. *)
Lemma built_agent_reports_healthy_witness :
  ∃ h,
    (getHealth (getAgent libraryOk nothingInFlight justBooted).2).1 = Ok h
    ∧ status h = healthy
    ∧ error h = None.
Proof.
  apply (built_agent_reports_healthy libraryOk nothingInFlight justBooted
           (greetAgent "gpt-4o-mini")); reflexivity.
Defined.

(** *** The content of an answer *)

Lemma append_empty_r (s : string) : s +:+ "" = s.
Proof.
  induction s as [|c s IH]; [reflexivity |].
  change (String c s +:+ "") with (String c (s +:+ "")). now rewrite IH.
Qed.

Lemma append_assoc (a b c : string) : (a +:+ b) +:+ c = a +:+ (b +:+ c).
Proof.
  induction a as [|x a IH]; [reflexivity |].
  change (String x a +:+ b) with (String x (a +:+ b)).
  change (String x (a +:+ b) +:+ c) with (String x ((a +:+ b) +:+ c)).
  change (String x a +:+ (b +:+ c)) with (String x (a +:+ (b +:+ c))).
  now rewrite IH.
Qed.

Lemma concat_empty_cons (x : string) (xs : list string) :
  String.concat "" (x :: xs) = x +:+ String.concat "" xs.
Proof.
  destruct xs as [|y ys]; [cbn [String.concat]; now rewrite append_empty_r |].
  reflexivity.
Qed.

Lemma concat_empty_app (xs ys : list string) :
  String.concat "" (xs ++ ys) = String.concat "" xs +:+ String.concat "" ys.
Proof.
  induction xs as [|x xs IH]; [reflexivity |].
  change ((x :: xs) ++ ys) with (x :: (xs ++ ys)).
  now rewrite !concat_empty_cons, IH, append_assoc.
Qed.

(** X10.  What a part of an array content contributes is its text and
    nothing else: the test of its type has no effect, a part without text
    (or with an empty one) contributes the empty string, whatever its type.
    The content of an array is the texts of its parts in order, so that
    the content of two arrays put end to end is the two contents put end to
    end; a string content is kept as it is. *)
Theorem content_is_the_texts_in_order :
  (∀ c, partText c = default "" (part_text c))
  ∧ (∀ parts,
       flatten (CArray parts)
       = String.concat "" (map (λ c, default "" (part_text c)) parts))
  ∧ (∀ xs ys,
       flatten (CArray (xs ++ ys)) = flatten (CArray xs) +:+ flatten (CArray ys))
  ∧ (∀ s, flatten (CArray [{| part_type := Some "text"; part_text := Some s |}])
          = flatten (CString s)).
Proof.
  assert (Hpart : ∀ c, partText c = default "" (part_text c)).
  { intros [ty [text |]]; unfold partText; cbn [part_text part_type truthy].
    - destruct (String.eqb text "") eqn:Hempty; cbn [negb orb].
      + apply String.eqb_eq in Hempty. subst text. now destruct (bool_decide _).
      + reflexivity.
    - cbn [orb]. now destruct (bool_decide _). }
  split; [exact Hpart |]. split; [| split].
  - intros parts. cbn [flatten]. f_equal.
    induction parts as [|c parts IH]; [reflexivity |].
    cbn [map]. now rewrite Hpart, IH.
  - intros xs ys. cbn [flatten]. now rewrite map_app, concat_empty_app.
  - intros s. cbn [flatten map String.concat]. apply Hpart.
Qed.

(** ** The limiter and its clients *)

Lemma serve_eq now c s :
  serve now c s
  = ((serveBare now c (limiter (advance now s))).1,
     {| limiter := (serveBare now c (limiter (advance now s))).2;
        nextSweep := nextSweep (advance now s) |}).
Proof.
  unfold serve, serveBare. destruct c as [id | id]; [| reflexivity].
  destruct (checkLimitAt now id (limiter (advance now s))). reflexivity.
Qed.

Lemma serveBare_fields now c rl :
  maxRequests (serveBare now c rl).2 = maxRequests rl
  ∧ windowMs (serveBare now c rl).2 = windowMs rl.
Proof. destruct c; split; reflexivity. Qed.

(** A call touches the key of its client's current window and no other. *)
Lemma serveBare_other now c rl key :
  key ≠ keyOf (caller c) (windowKey now (windowMs rl)) →
  requests (serveBare now c rl).2 !! key = requests rl !! key.
Proof.
  intros Hne. destruct c as [id | id]; cbn [caller] in Hne.
  - unfold serveBare, checkLimitAt. cbv zeta. cbn [snd set_requests requests].
    repeat match goal with
           | |- context [if ?b then _ else _] => destruct b
           end;
      rewrite ?lookup_insert_ne by congruence; reflexivity.
  - cbn. now rewrite lookup_delete_ne by congruence.
Qed.

(** What a call answers and leaves under its key depends on the quota, the
    window length and what it finds under that key. *)
Lemma serveBare_agree now c rl rl' :
  maxRequests rl = maxRequests rl' →
  windowMs rl = windowMs rl' →
  requests rl !! keyOf (caller c) (windowKey now (windowMs rl))
  = requests rl' !! keyOf (caller c) (windowKey now (windowMs rl)) →
  (serveBare now c rl).1 = (serveBare now c rl').1
  ∧ requests (serveBare now c rl).2 !! keyOf (caller c) (windowKey now (windowMs rl))
    = requests (serveBare now c rl').2 !! keyOf (caller c) (windowKey now (windowMs rl)).
Proof.
  intros Hm Hw Hl. destruct c as [id | id]; cbn [caller] in *.
  - unfold serveBare, checkLimitAt. cbv zeta. rewrite <- Hw, <- Hm, <- Hl.
    cbn [fst snd set_requests requests].
    repeat match goal with
           | |- context [if ?b then _ else _] => destruct b
           end;
      rewrite ?lookup_insert_eq; auto.
  - cbn. rewrite <- Hw. split; [reflexivity |]. now rewrite !lookup_delete_eq.
Qed.

Lemma coherent_serveBare t rl now c :
  0 < windowMs rl → coherent t rl → t ≤ now →
  coherent now (serveBare now c rl).2.
Proof.
  intros Hw Hco Ht. destruct c as [id | id].
  - assert (H := coherent_check t rl now id Hw Hco Ht).
    unfold serveBare. destruct (checkLimitAt now id rl). exact H.
  - cbn. apply coherent_reset. now apply (coherent_mono t).
Qed.

Lemma chronological_le t calls upto : chronological t calls upto → t ≤ upto.
Proof.
  revert t. induction calls as [|[now c] rest IH]; intros t H; cbn in H; [exact H |].
  destruct H as [H1 H2]. apply IH in H2. lia.
Qed.

Lemma chronological_from t t' calls upto :
  t' ≤ t → chronological t calls upto → chronological t' calls upto.
Proof. destruct calls as [|[now c] rest]; cbn; intros; [lia | split; [lia | tauto]]. Qed.

Lemma chronological_callsOf keep t calls upto :
  chronological t calls upto → chronological t (callsOf keep calls) upto.
Proof.
  revert t. induction calls as [|[now c] rest IH]; intros t H; [exact H |].
  cbn [chronological] in H. destruct H as [H1 H2].
  unfold callsOf. cbn [List.filter snd]. fold (callsOf keep rest).
  destruct (keep (caller c)).
  - cbn [chronological]. split; [exact H1 | now apply IH].
  - apply (chronological_from now); [exact H1 | now apply IH].
Qed.

Lemma callsOf_everyone calls : callsOf everyone calls = calls.
Proof.
  induction calls as [|[now c] rest IH]; [reflexivity |].
  unfold callsOf in *. cbn. now rewrite IH.
Qed.

Lemma answersTo_everyone calls s : answersTo everyone calls s = (serveAll calls s).1.
Proof.
  revert s. induction calls as [|[now c] rest IH]; intros s; [reflexivity |].
  rewrite serveAll_cons. cbn [answersTo]. destruct (serve now c s) as [r s1].
  cbn [everyone fst snd]. now rewrite IH.
Qed.

(** The answers to the selected clients, as the limiter with its timer gives
    them among all its calls, are those of a limiter without timer that
    serves the calls of these clients only: the two agree on what is on
    record for these clients' current and later windows. *)
Lemma answersTo_bare keep w :
  0 < w →
  ∀ calls s rl t upto,
    schedInv w t s → coherent t rl → windowMs rl = w →
    maxRequests rl = maxRequests (limiter s) →
    (∀ id index, keep id = true → windowKey t w ≤ index →
                 requests (limiter s) !! keyOf id index
                 = requests rl !! keyOf id index) →
    chronological t calls upto →
    answersTo keep calls s = (bareAll (callsOf keep calls) rl).1.
Proof.
  intros Hpos. induction calls as [|[now c] rest IH];
    intros s rl t upto Hinv Hco Hw Hmax Hagree Hch; [reflexivity |].
  cbn [chronological] in Hch. destruct Hch as [Hle Hch].
  assert (Hsa := advance_inv w t s now Hinv Hle).
  assert (Hcow : coherent now rl) by now apply (coherent_mono t).
  destruct Hsa as (Hwa & Hcoa & Hta & Hfresh).
  assert (Hmaxa : maxRequests (limiter (advance now s)) = maxRequests (limiter s))
    by apply runSweeps_maxRequests.
  assert (Hnow : ∀ id index, keep id = true → windowKey now w ≤ index →
                   requests (limiter (advance now s)) !! keyOf id index
                   = requests rl !! keyOf id index).
  { intros id index Hid Hidx.
    destruct (Z.eq_dec index (windowKey now w)) as [-> | Hne].
    - rewrite (advance_lookup w t s now id Hpos Hinv Hle).
      apply Hagree; [exact Hid |]. unfold windowKey.
      apply Z.div_le_mono; lia.
    - rewrite (coherent_future now (limiter (advance now s)) id index);
        [| rewrite Hwa; exact Hpos | exact Hcoa | rewrite Hwa; lia].
      symmetry. apply (coherent_future now rl id index);
        [rewrite Hw; exact Hpos | exact Hcow | rewrite Hw; lia]. }
  assert (Hinv1 : schedInv w now (serve now c s).2) by now apply (serve_inv w t).
  cbn [answersTo]. unfold callsOf. cbn [List.filter snd]. fold (callsOf keep rest).
  rewrite serve_eq in *. cbn [fst snd] in Hinv1.
  set (sa := advance now s) in *.
  destruct (serveBare_fields now c (limiter sa)) as [Hf1 Hf2].
  destruct (keep (caller c)) eqn:Hkeep.
  - cbn [bareAll].
    destruct (serveBare_agree now c (limiter sa) rl) as [Hans Hkey];
      [congruence | congruence | rewrite Hwa; now apply Hnow |].
    destruct (serveBare_fields now c rl) as [Hg1 Hg2].
    destruct (serveBare now c rl) as [r rl1] eqn:Hbare.
    destruct (bareAll (callsOf keep rest) rl1) as [rs rl2] eqn:Hrest.
    cbn [fst snd] in *. rewrite Hans. f_equal.
    replace rs with (bareAll (callsOf keep rest) rl1).1 by now rewrite Hrest.
    apply (IH _ rl1 now upto); try assumption.
    + replace rl1 with (serveBare now c rl).2 by now rewrite Hbare.
      apply (coherent_serveBare now); [rewrite Hw; exact Hpos | exact Hcow | lia].
    + congruence.
    + cbn [limiter]. congruence.
    + intros id index Hid Hidx. cbn [limiter].
      destruct (decide (keyOf id index
                        = keyOf (caller c) (windowKey now w))) as [-> | Hne].
      * rewrite <- Hwa at 1. rewrite Hkey, Hwa. reflexivity.
      * rewrite serveBare_other by (rewrite Hwa; exact Hne).
        replace rl1 with (serveBare now c rl).2 by now rewrite Hbare.
        rewrite serveBare_other by (rewrite Hw; exact Hne).
        now apply Hnow.
  - apply (IH _ rl now upto); try assumption.
    + cbn [limiter]. congruence.
    + intros id index Hid Hidx. cbn [limiter].
      rewrite serveBare_other; [now apply Hnow |].
      intros Heq. apply keyOf_inj in Heq as [-> _]. congruence.
Qed.

(** X11.  The clients of the limiter do not interfere.  Whatever calls
    the other clients make, and whenever the timer sweeps, the answers a
    client gets are those it would get if it were the only client: its
    calls alone, served by a limiter constructed at the same instant, are
    answered the same. *)
Theorem clients_do_not_interfere startedAt quota w calls upto identifier :
  0 < w → chronological startedAt calls upto →
  answersTo (only identifier) calls (construct startedAt quota w)
  = (serveAll (callsOf (only identifier) calls) (construct startedAt quota w)).1.
Proof.
  intros Hpos Hch.
  assert (Hempty : coherent startedAt (newRateLimiter quota w)).
  { intros key e He. cbn in He. rewrite lookup_empty in He. discriminate. }
  rewrite <- answersTo_everyone.
  rewrite (answersTo_bare everyone w Hpos (callsOf (only identifier) calls)
             (construct startedAt quota w) (newRateLimiter quota w)
             startedAt upto);
    auto using construct_inv, chronological_callsOf.
  rewrite callsOf_everyone.
  apply (answersTo_bare (only identifier) w Hpos calls _ _ startedAt upto);
    auto using construct_inv.
Qed.

(** Two clients, two requests a minute: the first client is granted,
    granted, refused, then granted in each later minute, with or without
    the calls of the second. *)
Lemma clients_do_not_interfere_witness :
  answersTo (only "203.0.113.7") twoClients (construct 0 2 60000)
  = (serveAll (callsOf (only "203.0.113.7") twoClients) (construct 0 2 60000)).1
  ∧ answersTo (only "203.0.113.7") twoClients (construct 0 2 60000)
    = [granted 1 61000; granted 0 61000; refused 0 61000;
       granted 1 121000; granted 1 245000].
Proof.
  split; [| vm_compute; reflexivity].
  apply (clients_do_not_interfere 0 2 60000 twoClients 185000 "203.0.113.7").
  - lia.
  - cbn. lia.
Defined.

(** X12.  The sweeps of the timer cannot be observed through the limiter.
    A limiter whose timer sweeps on time and one whose timer never fires
    give the same answers to the same calls: [cleanup] only removes what no
    later call would read. *)
Theorem sweeps_are_not_observable startedAt quota w calls upto :
  0 < w → chronological startedAt calls upto →
  (serveAll calls (construct startedAt quota w)).1
  = (bareAll calls (newRateLimiter quota w)).1.
Proof.
  intros Hpos Hch. rewrite <- answersTo_everyone.
  rewrite <- (callsOf_everyone calls) at 2.
  apply (answersTo_bare everyone w Hpos calls _ _ startedAt upto); auto.
  - apply construct_inv.
  - intros key e He. cbn in He. rewrite lookup_empty in He. discriminate.
Qed.

Lemma sweeps_are_not_observable_witness :
  (serveAll twoClients (construct 0 2 60000)).1
  = (bareAll twoClients (newRateLimiter 2 60000)).1
  ∧ size (requests (serveAll twoClients (construct 0 2 60000)).2.(limiter)) = 1%nat
  ∧ size (requests (bareAll twoClients (newRateLimiter 2 60000)).2) = 4%nat.
Proof.
  split; [| split; vm_compute; reflexivity].
  apply (sweeps_are_not_observable 0 2 60000 twoClients 185000).
  - lia.
  - cbn. lia.
Defined.

(** *** Counts and the quota *)

Lemma bounded_serveBare now c rl :
  bounded rl →
  bounded (serveBare now c rl).2 ∧ withinQuota (maxRequests rl) (serveBare now c rl).1.
Proof.
  intros Hb. destruct c as [id | id].
  - unfold serveBare, checkLimitAt. cbv zeta.
    set (key := keyOf id (windowKey now (windowMs rl))).
    destruct (requests rl !! key) as [e0 |] eqn:Hstored;
      cbn [from_option Datatypes.id fst snd];
      [assert (Hb0 := Hb _ _ Hstored) |];
      repeat match goal with
             | |- context [if ?b then _ else _] => destruct b eqn:?
             end;
      cbn [count resetTime withinQuota Limit.allowed Limit.remaining fst snd] in *;
      repeat match goal with
             | H : (_ <? _) = true |- _ => apply Z.ltb_lt in H
             | H : (_ <? _) = false |- _ => apply Z.ltb_ge in H
             end;
      (split; [| lia]);
      intros k e; cbn [requests set_requests];
      rewrite ?lookup_insert; repeat case_decide;
      try (intros [= <-]; cbn [count maxRequests set_requests]; lia);
      try apply Hb;
      match goal with
      | H : _ && bool_decide (is_Some None) = true |- _ =>
          apply andb_true_iff in H as [_ H]; apply bool_decide_eq_true in H;
          destruct H; discriminate
      end.
  - split; [| exact I]. intros k e. cbn. intros He.
    apply lookup_delete_Some in He as [_ He]. exact (Hb _ _ He).
Qed.

Lemma bounded_runSweeps n s : bounded (limiter s) → bounded (limiter (runSweeps n s)).
Proof.
  intros Hb key e He. rewrite runSweeps_maxRequests.
  apply runSweeps_subset in He. exact (Hb _ _ He).
Qed.

Lemma bounded_serveAll calls :
  ∀ s, bounded (limiter s) →
       bounded (limiter (serveAll calls s).2)
       ∧ maxRequests (limiter (serveAll calls s).2) = maxRequests (limiter s)
       ∧ Forall (withinQuota (maxRequests (limiter s))) (serveAll calls s).1.
Proof.
  induction calls as [|[now c] rest IH]; intros s Hb.
  - cbn. split; [exact Hb |]. split; [reflexivity | constructor].
  - assert (Ha : bounded (limiter (advance now s))) by now apply bounded_runSweeps.
    destruct (bounded_serveBare now c _ Ha) as [Hb1 Hq1].
    destruct (serveBare_fields now c (limiter (advance now s))) as [Hm1 _].
    assert (Hma : maxRequests (limiter (advance now s)) = maxRequests (limiter s))
      by apply runSweeps_maxRequests.
    cbn [serveAll]. rewrite serve_eq.
    set (s1 := {| limiter := (serveBare now c (limiter (advance now s))).2;
                  nextSweep := nextSweep (advance now s) |}).
    destruct (IH s1 Hb1) as (Hb2 & Hm2 & Hq2).
    destruct (serveAll rest s1) as [rs s2]. cbn [fst snd] in *.
    unfold s1 in Hm2, Hq2. cbn [limiter] in Hm2, Hq2.
    rewrite Hm1, Hma in Hm2, Hq2. rewrite Hma in Hq1.
    split; [exact Hb2 |]. split; [exact Hm2 |].
    constructor; [exact Hq1 | exact Hq2].
Qed.

(** X13.  Counts and answers stay within the quota.  Whatever the calls
    and their instants, an entry of the limiter counts at least one request
    and at most [maxRequests]; a granted request is told a number of
    requests left between 0 and one less than the quota, and a refused one
    is told 0. *)
Theorem counts_stay_within_the_quota startedAt quota w calls upto :
  (∀ key e,
     requests (limiterAt startedAt quota w calls upto) !! key = Some e →
     1 ≤ count e ≤ quota)
  ∧ Forall (withinQuota quota) (serveAll calls (construct startedAt quota w)).1.
Proof.
  assert (H0 : bounded (limiter (construct startedAt quota w))).
  { intros key e He. cbn in He. rewrite lookup_empty in He. discriminate. }
  destruct (bounded_serveAll calls _ H0) as (Hb & Hm & Hq).
  split; [| exact Hq].
  intros key e He. unfold limiterAt, advance in He.
  apply (bounded_runSweeps
           (sweepsDue upto (serveAll calls (construct startedAt quota w)).2))
    in Hb.
  specialize (Hb _ _ He).
  rewrite runSweeps_maxRequests, Hm in Hb. exact Hb.
Qed.

(** *** [reset] *)

Lemma serveAll_last w calls :
  0 < w → ∀ s t upto,
    schedInv w t s → chronological t calls upto →
    ∃ t', t' ≤ upto ∧ schedInv w t' (serveAll calls s).2.
Proof.
  intros Hpos. induction calls as [|[now c] rest IH]; intros s t upto Hinv Hch.
  - exists t. split; [exact Hch | exact Hinv].
  - cbn [chronological serveAll] in *. destruct Hch as [Hle Hch].
    assert (Hs := serve_inv w t s now c Hpos Hinv Hle).
    destruct (serve now c s) as [r s1]. cbn [snd] in Hs.
    destruct (IH s1 now upto Hs Hch) as (t' & Ht' & Hinv').
    destruct (serveAll rest s1) as [rs s2]. exists t'. auto.
Qed.

(** X14.  [reset] gives the client a fresh window.  After any calls, a
    [reset] for a client followed by a request of that client in the same
    window is granted, with the whole quota but this request left, as long
    as the quota is positive, however many requests the client had made
    before; the window it is told ends one window length after this
    request, not after the first request of the window. *)
Theorem reset_gives_a_fresh_window startedAt quota w calls now later identifier :
  0 < w → 0 < quota →
  chronological startedAt calls now → now ≤ later →
  windowKey later w = windowKey now w →
  let s := (serveAll calls (construct startedAt quota w)).2 in
  let afterReset := (serve now (CallReset identifier) s).2 in
  (serve later (CallCheck identifier) afterReset).1
  = granted (quota - 1) (later + w).
Proof.
  intros Hpos Hquota Hch Hle Hkey s afterReset.
  destruct (serveAll_last w calls Hpos _ startedAt now
              (construct_inv startedAt quota w) Hch) as (t & Ht & Hinv).
  fold s in Hinv.
  assert (Hmax : maxRequests (limiter s) = quota).
  { assert (H0 : bounded (limiter (construct startedAt quota w))).
    { intros key e He. cbn in He. rewrite lookup_empty in He. discriminate. }
    now destruct (bounded_serveAll calls _ H0) as (_ & Hm & _). }
  assert (Hinv1 : schedInv w now afterReset) by now apply (serve_inv w t).
  assert (Hwa : windowMs (limiter (advance now s)) = w)
    by now destruct (advance_inv w t s now Hinv Ht).
  assert (Hmax1 : maxRequests (limiter afterReset) = quota).
  { unfold afterReset. rewrite serve_eq. cbn [snd limiter].
    destruct (serveBare_fields now (CallReset identifier) (limiter (advance now s)))
      as [-> _].
    unfold advance. now rewrite runSweeps_maxRequests. }
  assert (Hnone : requests (limiter afterReset)
                  !! keyOf identifier (windowKey later w) = None).
  { rewrite Hkey. unfold afterReset. rewrite serve_eq. cbn [snd limiter serveBare].
    unfold resetAt. cbn [requests set_requests]. rewrite Hwa.
    apply lookup_delete_eq. }
  destruct (serve_check_first w now afterReset later identifier quota
              Hpos Hinv1 Hle Hmax1 Hnone) as (Hans & _).
  rewrite Hans. unfold answer, granted. cbn [count resetTime].
  assert (Hlt : (0 <? quota) = true) by (apply Z.ltb_lt; exact Hquota).
  rewrite Hlt. do 2 f_equal. lia.
Qed.

(** A client that has used up its two requests, reset and served again. *)
Lemma reset_gives_a_fresh_window_witness :
  let used := [(1000, CallCheck "203.0.113.7"); (2000, CallCheck "203.0.113.7")]%string in
  let s := (serveAll used (construct 0 2 60000)).2 in
  (serve 3000 (CallCheck "203.0.113.7") s).1 = refused 0 61000
  ∧ (serve 4000 (CallCheck "203.0.113.7")
       (serve 3000 (CallReset "203.0.113.7") s).2).1 = granted 1 64000.
Proof.
  split; [vm_compute; reflexivity |].
  apply (reset_gives_a_fresh_window 0 2 60000
           [(1000, CallCheck "203.0.113.7"); (2000, CallCheck "203.0.113.7")]%string
           3000 4000 "203.0.113.7").
  - lia.
  - lia.
  - cbn. lia.
  - lia.
  - reflexivity.
Defined.

(** ** The chat route *)

Lemma chatFailed_eq requestId hasContext error q :
  ∃ q',
    chatFailed requestId hasContext error q
    = (Ok (json (ErrorBody (if instanceofAgentError error then code error
                            else "UNEXPECTED_ERROR"))
             (if instanceofAgentError error then statusCode error else 500)
             [("X-Request-ID"%string, requestId)]), q')
    ∧ manager q' = manager q
    ∧ circuitBreaker q' = circuitBreaker q
    ∧ rateLimiter q' = rateLimiter q
    ∧ (∀ name, invocations name (trace (world q'))
               = invocations name (trace (world q)))
    ∧ sleeps (trace (world q')) = sleeps (trace (world q)).
Proof.
  unfold chatFailed. destruct (instanceofAgentError error).
  - rewrite createErrorResponse_eq. eexists. split; [reflexivity |].
    repeat split.
  - destruct hasContext; autorewrite with js; rewrite createErrorResponse_eq;
      eexists; (split; [reflexivity |]); repeat split.
Qed.





(** X17.  While the breaker is open, a valid request to a built agent is
    answered 503 with the code [CIRCUIT_BREAKER_OPEN]: the model is not
    called, nothing else is called or waited for, and the breaker is left
    as it was, still open with the same instant of its next attempt. *)
Theorem open_breaker_answers_503
  constructAgent remoteRun awaitInFlight request p a :
  validRequest request = true →
  agent (manager p) = Some a → runIsFunction a = true →
  heldOpen 8 p →
  let run := handleChat constructAgent remoteRun awaitInFlight request p in
  run.1 = Ok (json (ErrorBody "CIRCUIT_BREAKER_OPEN") 503
                [("X-Request-ID"%string, "req-" +:+ pretty (now p))])
  ∧ (∀ name, invocations name (trace (world run.2))
             = invocations name (trace (world p)))
  ∧ sleeps (trace (world run.2)) = sleeps (trace (world p))
  ∧ circuitBreaker run.2 = circuitBreaker p.
Proof.
  intros Hvalid Hagent Hrun [Hopen Hshut]. cbv zeta.
  assert (Hrefused :
    ∃ q',
      handleChat constructAgent remoteRun awaitInFlight request p
      = (Ok (json (ErrorBody "CIRCUIT_BREAKER_OPEN") 503
               [("X-Request-ID"%string, "req-" +:+ pretty (now p))]), q')
      ∧ (∀ name, invocations name (trace (world q'))
                 = invocations name (trace (world p)))
      ∧ sleeps (trace (world q')) = sleeps (trace (world p))
      ∧ circuitBreaker q' = circuitBreaker p).
  { unfold validRequest in Hvalid.
    unfold handleChat. autorewrite with js.
    destruct (Request.body request) as [| message optionalFieldsValid];
      [discriminate |].
    rewrite Hvalid. cbn [negb]. unfold try_catch. autorewrite with js.
    erewrite bind_ok by (apply getAgent_ready; exact Hagent).
    autorewrite with js. rewrite Hrun. unfold agentRun, bind at 1.
    rewrite execute_refused.
    - match goal with |- context [chatFailed ?r ?c ?e ?q] =>
        destruct (chatFailed_eq r c e q) as (q' & -> & Hm & Hb & Hr & Hi & Hs) end.
      cbn [fst snd instanceofAgentError code statusCode].
      exists q'. split; [reflexivity |].
      split; [exact Hi |]. split; [exact Hs | exact Hb].
    - exact Hopen.
    - specialize (Hshut 8%nat ltac:(lia)). unfold now, reading in *.
      cbn [world set_world tick push clock ticks circuitBreaker].
      replace (ticks (world p) + 8)%nat
        with (S (S (S (S (S (S (S (S (ticks (world p)))))))))) in Hshut by lia.
      exact Hshut. }
  destruct Hrefused as (q' & -> & H).
  split; [reflexivity | exact H].
Qed.

(** The agent at hand and the breaker just tripped: the request comes
    within the minute. *)
Lemma open_breaker_answers_503_witness :
  let run := handleChat libraryOk modelOk nothingInFlight hello trippedWhileServing in
  (∃ response, run.1 = Ok response ∧ Response.status response = 503)
  ∧ invocations "agentInstance.run" (trace (world run.2)) = O
  ∧ state (circuitBreaker run.2) = open.
Proof.
  destruct (open_breaker_answers_503 libraryOk modelOk nothingInFlight hello
              trippedWhileServing (greetAgent "gpt-4o-mini") eq_refl eq_refl eq_refl)
    as (H1 & H2 & _ & H3).
  - split; [reflexivity |]. intros i Hi.
    destruct i as [|[|[|[|[|[|[|[|[|i]]]]]]]]]; [reflexivity .. | lia].
  - split; [eexists; split; [exact H1 | reflexivity] |].
    split; [exact (H2 "agentInstance.run"%string) |].
    rewrite H3. reflexivity.
Defined.

(** ** The route behind the limiter *)




(** ** The health route *)


(** ** The address of a client *)





(** ** Requests that reach the model *)


Lemma agentRun_thrown remoteRun message q e :
  state (circuitBreaker q) = closed →
  (∀ q0, op_result (remoteRun message) q0 = Throw e) →
  agentRun remoteRun message q
  = (Throw e,
     failed
       (set_world (push (EvLog LError "Agent run failed"))
          (set_world tick (called (remoteRun message) (set_world tick q))))).
Proof.
  intros Hs Hop. unfold agentRun. rewrite (execute_closed _ q Hs).
  rewrite bind_Date_now. unfold try_catch.
  rewrite (bind_invoke_throw _ _ e) by apply Hop.
  autorewrite with js. reflexivity.
Qed.

(** X21.  A failed run is not retried.  When the model throws, a valid
    request to a built agent with a closed breaker calls the model exactly
    once and waits for nothing; the failure is counted once by the breaker,
    which opens if that reaches the threshold; and [handleChat] answers
    with the error's own code and status when it is one of the agent's
    errors, and with [UNEXPECTED_ERROR] and status 500 otherwise. *)
Theorem failed_run_is_not_retried
  constructAgent remoteRun awaitInFlight request p a e :
  validRequest request = true →
  agent (manager p) = Some a → runIsFunction a = true →
  state (circuitBreaker p) = closed →
  (∀ q, op_result (remoteRun (messageOf request)) q = Throw e) →
  let run := handleChat constructAgent remoteRun awaitInFlight request p in
  run.1 = Ok (json (ErrorBody (if instanceofAgentError e then code e
                               else "UNEXPECTED_ERROR"))
                (if instanceofAgentError e then statusCode e else 500)
                [("X-Request-ID"%string, "req-" +:+ pretty (now p))])
  ∧ invocations (op_name (remoteRun (messageOf request))) (trace (world run.2))
    = S (invocations (op_name (remoteRun (messageOf request))) (trace (world p)))
  ∧ sleeps (trace (world run.2)) = sleeps (trace (world p))
  ∧ failureCount (circuitBreaker run.2) = failureCount (circuitBreaker p) + 1
  ∧ state (circuitBreaker run.2)
    = (if threshold (circuitBreaker p) <=? failureCount (circuitBreaker p) + 1
       then open else closed).
Proof.
  intros Hvalid Hagent Hrun Hclosed Hop. cbv zeta.
  assert (Hdown :
    ∃ q',
      handleChat constructAgent remoteRun awaitInFlight request p
      = (Ok (json (ErrorBody (if instanceofAgentError e then code e
                              else "UNEXPECTED_ERROR"))
               (if instanceofAgentError e then statusCode e else 500)
               [("X-Request-ID"%string, "req-" +:+ pretty (now p))]), q')
      ∧ invocations (op_name (remoteRun (messageOf request))) (trace (world q'))
        = S (invocations (op_name (remoteRun (messageOf request))) (trace (world p)))
      ∧ sleeps (trace (world q')) = sleeps (trace (world p))
      ∧ failureCount (circuitBreaker q') = failureCount (circuitBreaker p) + 1
      ∧ state (circuitBreaker q')
        = (if threshold (circuitBreaker p) <=? failureCount (circuitBreaker p) + 1
           then open else closed)).
  { unfold validRequest in Hvalid. unfold messageOf in *.
    unfold handleChat. autorewrite with js.
    destruct (Request.body request) as [| message optionalFieldsValid];
      [discriminate |].
    rewrite Hvalid. cbn [negb]. unfold try_catch. autorewrite with js.
    erewrite bind_ok by (apply getAgent_ready; exact Hagent).
    autorewrite with js. rewrite Hrun. unfold bind at 1.
    rewrite (agentRun_thrown _ _ _ e) by first [exact Hclosed | exact Hop].
    match goal with |- context [chatFailed ?r ?c ?e ?q] =>
      destruct (chatFailed_eq r c e q) as (q' & -> & Hm & Hb & Hr & Hi & Hs) end.
    exists q'. split; [reflexivity |].
    rewrite Hi, Hs, Hb, invocations_failed, failed_breaker.
    match goal with |- context [failed ?q] =>
      destruct (failed_frame q) as (_ & _ & Hsl & _) end.
    rewrite Hsl. cbv zeta. cbn [circuitBreaker set_world].
    split; [cbn; now rewrite String.eqb_refl |].
    split; [reflexivity |].
    destruct (_ <=? _); cbn; rewrite ?Hclosed; auto. }
  destruct Hdown as (q' & -> & H).
  split; [reflexivity | exact H].
Qed.

(** The agent built, the model down. *)
Lemma failed_run_is_not_retried_witness :
  let run := handleChat libraryOk modelDown nothingInFlight hello serving in
  (∃ response, run.1 = Ok response ∧ Response.status response = 500
               ∧ Response.body response = ErrorBody "UNEXPECTED_ERROR")
  ∧ invocations "agentInstance.run" (trace (world run.2)) = 1%nat
  ∧ sleeps (trace (world run.2)) = []
  ∧ failureCount (circuitBreaker run.2) = 1
  ∧ state (circuitBreaker run.2) = closed.
Proof.
  destruct (failed_run_is_not_retried libraryOk modelDown nothingInFlight hello
              serving (greetAgent "gpt-4o-mini") (JsError "fetch failed")
              eq_refl eq_refl eq_refl eq_refl (λ _, eq_refl))
    as (H1 & H2 & H3 & H4 & H5).
  split; [eexists; split; [exact H1 | split; reflexivity] |].
  split; [exact H2 |]. split; [exact H3 |]. split; [exact H4 | exact H5].
Defined.





(** ** Bursts at the boundary of a window *)

Lemma serveAll_app calls1 calls2 s :
  serveAll (calls1 ++ calls2) s
  = ((serveAll calls1 s).1 ++ (serveAll calls2 (serveAll calls1 s).2).1,
     (serveAll calls2 (serveAll calls1 s).2).2).
Proof.
  revert s. induction calls1 as [|[now c] rest IH]; intros s.
  - cbn. now destruct (serveAll calls2 s).
  - cbn [app serveAll]. destruct (serve now c s) as [r s1].
    rewrite IH. destruct (serveAll rest s1) as [rs s2]. reflexivity.
Qed.

(** Requests of one client at one instant are granted as long as the count
    of the window stays within the quota. *)
Lemma requestsAt_granted w identifier now quota :
  0 < w →
  ∀ k s t,
    schedInv w t s → t ≤ now → maxRequests (limiter s) = quota →
    let key := keyOf identifier (windowKey now w) in
    let fresh := {| count := 0; resetTime := now + w |} in
    let before := count (default fresh (requests (limiter s) !! key)) in
    before + Z.of_nat k ≤ quota →
    let run := serveAll (requestsAt k now identifier) s in
    map isGranted run.1 = replicate k true
    ∧ (∃ t', t' ≤ now ∧ schedInv w t' run.2)
    ∧ maxRequests (limiter run.2) = quota
    ∧ count (default fresh (requests (limiter run.2) !! key))
      = before + Z.of_nat k.
Proof.
  intros Hpos. induction k as [|k IH]; intros s t Hinv Hle Hmax; cbv zeta.
  - intros _. cbn. split; [reflexivity |]. split; [exists t; auto |].
    split; [exact Hmax | lia].
  - intros Hroom.
    destruct (serve_check w t s now identifier Hpos Hinv Hle)
      as (Hans & Hnext & Hmax1 & Hinv1).
    cbv zeta in Hans, Hnext. rewrite Hmax in Hans, Hnext, Hmax1.
    set (current := default {| count := 0; resetTime := now + w |}
                      (requests (limiter s) !! keyOf identifier (windowKey now w)))
      in *.
    assert (Hlt : (count current <? quota) = true) by (apply Z.ltb_lt; lia).
    rewrite Hlt in Hnext.
    specialize (IH (serve now (CallCheck identifier) s).2 now Hinv1
                  ltac:(lia) Hmax1).
    cbv zeta in IH. rewrite Hnext in IH.
    cbn [from_option Datatypes.id bump count] in IH.
    destruct (IH ltac:(lia)) as (Hgr & Hlast & Hmax2 & Hcount).
    unfold requestsAt in *. cbn [replicate serveAll].
    destruct (serve now (CallCheck identifier) s) as [r s1].
    cbn [fst snd] in *.
    destruct (serveAll (replicate k (now, CallCheck identifier)) s1) as [rs s2].
    cbn [fst snd map] in *. subst r. unfold answer at 1.
    cbn [isGranted Limit.allowed]. rewrite Hlt, Hgr.
    split; [reflexivity |]. split; [exact Hlast |]. split; [exact Hmax2 |].
    rewrite Hcount. lia.
Qed.

(** X23.  At the boundary of two windows a client gets twice the quota.
    With a quota of [n], [n] requests made in one window and [n] more made
    in a later window are all granted, however close the two instants are,
    and the next request is refused: a fixed window bounds the requests of
    a window, not those of a time span of its length. *)
Theorem window_boundary_doubles_the_quota startedAt w t1 t2 identifier n :
  0 < w → startedAt ≤ t1 → t1 ≤ t2 →
  windowKey t1 w < windowKey t2 w →
  map isGranted
    (serveAll (requestsAt n t1 identifier ++ requestsAt n t2 identifier
               ++ requestsAt 1 t2 identifier)
       (construct startedAt (Z.of_nat n) w)).1
  = replicate n true ++ replicate n true ++ [false].
Proof.
  intros Hpos H1 H12 Hkeys.
  set (quota := Z.of_nat n). set (s0 := construct startedAt quota w).
  destruct (requestsAt_granted w identifier t1 quota Hpos n s0 startedAt
              (construct_inv startedAt quota w) H1 eq_refl)
    as (Hg1 & (t' & Ht' & Hinv1) & Hmax1 & _).
  { cbn. rewrite lookup_empty. cbn. lia. }
  set (s1 := (serveAll (requestsAt n t1 identifier) s0).2) in *.
  assert (Hnone : requests (limiter s1) !! keyOf identifier (windowKey t2 w) = None).
  { destruct Hinv1 as (Hw & Hco & _).
    apply (coherent_future t'); [rewrite Hw; exact Hpos | exact Hco |].
    rewrite Hw. unfold windowKey in *.
    assert (t' / w ≤ t1 / w) by (apply Z.div_le_mono; lia). lia. }
  destruct (requestsAt_granted w identifier t2 quota Hpos n s1 t'
              Hinv1 ltac:(lia) Hmax1)
    as (Hg2 & (t'' & Ht'' & Hinv2) & Hmax2 & Hcount2).
  { rewrite Hnone. cbn. lia. }
  rewrite Hnone in Hcount2. cbn [from_option Datatypes.id count] in Hcount2.
  set (s2 := (serveAll (requestsAt n t2 identifier) s1).2) in *.
  destruct (serve_check w t'' s2 t2 identifier Hpos Hinv2 Ht'') as (Hans & _).
  cbv zeta in Hans. rewrite Hmax2 in Hans.
  rewrite !serveAll_app. cbn [fst snd]. fold s1. fold s2.
  rewrite !map_app, Hg1, Hg2. do 2 f_equal.
  unfold requestsAt. cbn [replicate serveAll].
  destruct (serve t2 (CallCheck identifier) s2) as [r s3]. cbn [fst snd map] in *.
  subst r. unfold answer. cbn [isGranted Limit.allowed]. rewrite Hcount2.
  f_equal. apply Z.ltb_ge. lia.
Qed.

(** Five requests in the last millisecond of a minute and five in the first
    of the next, under a quota of five a minute. *)
Lemma window_boundary_doubles_the_quota_witness :
  map isGranted
    (serveAll (requestsAt 5 59999 "203.0.113.7" ++ requestsAt 5 60000 "203.0.113.7"
               ++ requestsAt 1 60000 "203.0.113.7")
       (construct 0 5 60000)).1
  = [true; true; true; true; true; true; true; true; true; true; false].
Proof.
  apply (window_boundary_doubles_the_quota 0 60000 59999 60000 "203.0.113.7" 5).
  - lia.
  - lia.
  - lia.
  - reflexivity.
Defined.

(** ** A handler that throws *)

(** X24.  When the handler throws, the middleware runs it a second time.
    The error is caught and logged, and the handler is called again in the
    state its first run left, without the limiter being asked again: the
    request has been counted once, and what the second run returns or
    throws is what [withRateLimit] returns or throws, with no rate-limit
    header added. *)
Theorem throwing_handler_is_run_again request handler p ip p1 e p3 :
  getClientIP request p = (Ok ip, p1) →
  handler
    (set_rateLimiter (λ _, (checkLimitAt (now p1) ip (rateLimiter p1)).2)
       (set_world tick p1))
  = (Throw e, p3) →
  withRateLimit request handler p
  = handler (set_world (push (EvLog LError "Rate limiting middleware error")) p3).
Proof.
  intros Hip Hh. unfold withRateLimit, try_catch.
  rewrite (bind_ok _ _ _ _ _ Hip), (bind_ok _ _ _ _ _ (checkLimit_eq ip p1)).
  unfold bind at 1. rewrite Hh. rewrite bind_logger. reflexivity.
Qed.

(** A handler that logs its entry and fails: it is entered twice, and the
    window of the client counts one request. *)
Lemma throwing_handler_is_run_again_witness :
  let run := withRateLimit hello brokenHandler justBooted in
  run.1 = Throw (JsError "handler failed")
  ∧ logged "handler entered" (trace (world run.2)) = 2%nat
  ∧ windowCount (now justBooted) "203.0.113.7" (rateLimiter run.2) = 1.
Proof.
  assert (H := throwing_handler_is_run_again hello brokenHandler justBooted
                 "203.0.113.7" justBooted (JsError "handler failed") _
                 eq_refl eq_refl).
  cbv zeta. rewrite H. repeat split; vm_compute; reflexivity.
Defined.
